(** * Quiz session manager: the option presenter and the session store

    A shallow embedding of [src/components/Question.tsx] (the Fisher-Yates
    shuffle of a question's options and the mapping of a click back to the
    option's original index) and of the quiz context provider (the session
    store: navigation, answers, timer, scoring, persistence in
    [localStorage]).

    Conventions of the embedding.
    - A JavaScript [number] that the program uses as an index, an identifier,
      a count or a duration in milliseconds is an integer of [Z].
    - [x | null] is [option x]; [undefined] as the result of reading a
      property is [None] of an [option].
    - An exception is the [Throw] case of [completion].
    - A string is a sequence of 8-bit characters, each standing for the code
      unit of the same code.
    - [localStorage] is a finite map from strings to strings.
    - [Math.random()] is the [k]-th element of a sequence of rationals; the
      platform promises each of them in the interval [0, 1).
    - [Date.now()] is an argument [now] of the operation that reads it. *)

From Stdlib Require Import ZArith QArith Qround DecimalString DecimalZ DecimalPos Ascii String.
From Stdlib Require Import Sorted.
From stdpp Require Import base option list strings gmap.

Local Open Scope Z_scope.
Set Warnings "-register-all".

(* ===================================================================== *)
(** ** Completions: a value or a thrown exception                          *)
(* ===================================================================== *)

Inductive exn : Type :=
  | SyntaxError
  | TypeError.

Inductive completion (A : Type) : Type :=
  | Ok (a : A)
  | Throw (e : exn).
Arguments Ok {A} a.
Arguments Throw {A} e.

Definition cbind {A B} (c : completion A) (k : A -> completion B) : completion B :=
  match c with
  | Ok a => k a
  | Throw e => Throw e
  end.

(** [try { c } catch (e) { h }] *)
Definition try_catch {A} (c : completion A) (h : exn -> completion A) : completion A :=
  match c with
  | Ok a => Ok a
  | Throw e => h e
  end.

#[global] Instance completion_ret : MRet completion := fun A a => Ok a.
#[global] Instance completion_bind : MBind completion := fun A B k c => cbind c k.

(* ===================================================================== *)
(** ** JavaScript values that [JSON.parse] can return                      *)
(* ===================================================================== *)

(** An object is the list of its own properties in property order. *)
Inductive JsVal : Type :=
  | JNull
  | JBool (b : bool)
  | JNum (n : Z)
  | JStr (s : string)
  | JArr (elements : list JsVal)
  | JObj (properties : list (string * JsVal)).

(** The platform's [JSON] object.  [JSON.parse] throws a [SyntaxError] on a
    text that is not JSON. *)
Class JSON : Type := {
  JSON_parse : string -> completion JsVal;
  JSON_stringify : JsVal -> string
}.

(** The property names the initializer reads. *)
Inductive prop_name : Type :=
  | P_answers
  | P_length
  | P_startTime.

Definition prop_key (p : prop_name) : string :=
  match p with
  | P_answers => "answers"
  | P_length => "length"
  | P_startTime => "startTime"
  end.

(** The first property of the list with the given key. *)
Fixpoint own_property (key : string) (properties : list (string * JsVal)) : option JsVal :=
  match properties with
  | [] => None
  | (k, v) :: rest => if String.eqb k key then Some v else own_property key rest
  end.

(** [o.p]: reading a property of [undefined] or [null] throws a [TypeError];
    a string and an array have a [length]; booleans and numbers have none of
    the three properties. *)
Definition get_property (o : option JsVal) (p : prop_name) : completion (option JsVal) :=
  match o with
  | None => Throw TypeError
  | Some JNull => Throw TypeError
  | Some (JObj properties) => Ok (own_property (prop_key p) properties)
  | Some (JArr elements) =>
      match p with
      | P_length => Ok (Some (JNum (Z.of_nat (length elements))))
      | _ => Ok None
      end
  | Some (JStr s) =>
      match p with
      | P_length => Ok (Some (JNum (Z.of_nat (String.length s))))
      | _ => Ok None
      end
  | Some (JBool _) => Ok None
  | Some (JNum _) => Ok None
  end.

(** [v === n] for a number [n]. *)
Definition strict_equals_number (v : option JsVal) (n : Z) : bool :=
  match v with
  | Some (JNum m) => bool_decide (m = n)
  | _ => false
  end.

(** The truth value of a JavaScript value: [undefined], [null], [false],
    [0] and the empty string are falsy. *)
Definition truthy (v : option JsVal) : bool :=
  match v with
  | None => false
  | Some JNull => false
  | Some (JBool b) => b
  | Some (JNum n) => negb (bool_decide (n = 0))
  | Some (JStr s) => negb (bool_decide (s = ""%string))
  | Some (JArr _) => true
  | Some (JObj _) => true
  end.

(** [a || b] where [b] is a number. *)
Definition or_number (a : option JsVal) (b : Z) : JsVal :=
  match a with
  | Some v => if truthy a then v else JNum b
  | None => JNum b
  end.

(** Writing property [key] of an object under construction: an existing
    property keeps its place. *)
Fixpoint set_property (key : string) (v : JsVal) (properties : list (string * JsVal))
    : list (string * JsVal) :=
  match properties with
  | [] => [(key, v)]
  | (k, w) :: rest =>
      if String.eqb k key then (k, v) :: rest else (k, w) :: set_property key v rest
  end.

(** The key of the element at index [i] of an array or a string. *)
Definition index_key (i : nat) : string := NilEmpty.string_of_uint (Nat.to_uint i).

(** The own enumerable properties that [{...v}] copies: the properties of an
    object, the elements of an array and the characters of a string under
    their indices, nothing for a boolean, a number or [null]. *)
Definition spread (v : JsVal) : list (string * JsVal) :=
  match v with
  | JObj properties => properties
  | JArr elements => imap (fun i x => (index_key i, x)) elements
  | JStr s =>
      imap (fun i c => (index_key i, JStr (String c EmptyString)))
        (list_ascii_of_string s)
  | JNull | JBool _ | JNum _ => []
  end.

(* ===================================================================== *)
(** ** QuizContext: types and constants                                    *)
(* ===================================================================== *)

(** Modelled from the spec: the declarations of [Question], [UserAnswer] and
    [QuizState] in [../types/quiz], which is not among the sources.  The
    fields are the ones the two source files read and write, with the types
    of the spec's data model. *)
Record Question : Type := mkQuestion {
  id : Z;
  question : string;
  options : list string;
  correctAnswer : Z
}.

Record UserAnswer : Type := mkUserAnswer {
  questionId : Z;
  selectedAnswer : option Z;
  isAnswered : bool
}.

Record QuizState : Type := mkQuizState {
  currentQuestion : Z;
  answers : list UserAnswer;
  timeRemaining : Z;
  isCompleted : bool;
  startTime : Z
}.

(** Modelled from the spec: [User] of [../types/quiz], an opaque record.
    The provider does not interpret it: it is stored, serialized and parsed
    as a whole. *)
Definition User : Type := JsVal.

Definition QUIZ_DURATION : Z := 90 * 60 * 1000.
Definition STORAGE_KEY : string := "quiz-state".
Definition USER_STORAGE_KEY : string := "quiz-user".
Definition START_STORAGE_KEY : string := "quiz-started".
Definition COMPLETED_STORAGE_KEY : string := "quiz-completed".

(** A [QuizState] as the JavaScript object it is, with the properties in the
    order in which [getInitialQuizState] creates them. *)
Definition UserAnswer_toJS (a : UserAnswer) : JsVal :=
  JObj [ ("questionId"%string, JNum (questionId a));
         ("selectedAnswer"%string,
            match selectedAnswer a with Some n => JNum n | None => JNull end);
         ("isAnswered"%string, JBool (isAnswered a)) ].

Definition QuizState_toJS (s : QuizState) : JsVal :=
  JObj [ ("currentQuestion"%string, JNum (currentQuestion s));
         ("answers"%string, JArr (map UserAnswer_toJS (answers s)));
         ("timeRemaining"%string, JNum (timeRemaining s));
         ("isCompleted"%string, JBool (isCompleted s));
         ("startTime"%string, JNum (startTime s)) ].

(** [getInitialQuizState] *)
Definition getInitialQuizState (questions : list Question) (now : Z) : QuizState :=
  {| currentQuestion := 0;
     answers := map (fun q => {| questionId := id q;
                                 selectedAnswer := None;
                                 isAnswered := false |}) questions;
     timeRemaining := QUIZ_DURATION;
     isCompleted := false;
     startTime := now |}.

(** [if (saved)] for the result of [localStorage.getItem]: [null] and the
    empty string are falsy; a truthy item is its text. *)
Definition item_truthy (saved : option string) : option string :=
  match saved with
  | Some text => if bool_decide (text = ""%string) then None else Some text
  | None => None
  end.

(* ===================================================================== *)
(** ** QuizContext: the provider                                           *)
(* ===================================================================== *)

(** What a render of [QuizProvider] holds, together with [localStorage]. *)
Record Store : Type := mkStore {
  quizState : QuizState;
  user : option User;
  isQuizStarted : bool;
  localStorage : gmap string string
}.

(** The state while a handler runs: [localStorage] is written at once, a
    [setState] call is applied to the pending state, and [quizStateSet]
    records that [setQuizState] has installed a new object, which is what
    the dependency list of the save effect observes. *)
Record Pending : Type := mkPending {
  pending : Store;
  quizStateSet : bool
}.

Definition action : Type := Pending -> Pending.

Definition setQuizState (updater : QuizState -> QuizState) : action := fun p =>
  {| pending := {| quizState := updater (quizState (pending p));
                   user := user (pending p);
                   isQuizStarted := isQuizStarted (pending p);
                   localStorage := localStorage (pending p) |};
     quizStateSet := true |}.

Definition setUserState (u : option User) : action := fun p =>
  {| pending := {| quizState := quizState (pending p);
                   user := u;
                   isQuizStarted := isQuizStarted (pending p);
                   localStorage := localStorage (pending p) |};
     quizStateSet := quizStateSet p |}.

Definition setIsQuizStarted (b : bool) : action := fun p =>
  {| pending := {| quizState := quizState (pending p);
                   user := user (pending p);
                   isQuizStarted := b;
                   localStorage := localStorage (pending p) |};
     quizStateSet := quizStateSet p |}.

Definition on_localStorage (f : gmap string string -> gmap string string) : action :=
  fun p =>
  {| pending := {| quizState := quizState (pending p);
                   user := user (pending p);
                   isQuizStarted := isQuizStarted (pending p);
                   localStorage := f (localStorage (pending p)) |};
     quizStateSet := quizStateSet p |}.

Definition setItem (key val : string) : action := on_localStorage (insert key val).
Definition removeItem (key : string) : action := on_localStorage (delete key).

Definition skip : action := fun p => p.

(** [a; b] *)
Definition seq_action (a b : action) : action := fun p => b (a p).
Infix ";;;" := seq_action (at level 62, right associativity).

Section Provider.

Context `{JSON}.

(** [const [questions] = useState(initialQuestions)]: the bank never changes. *)
Variable questions : list Question.

(** The initializer of [useState<QuizState>]: the value it returns is the
    parsed object itself when the stored state is adopted. *)
Definition quizState_initializer (storage : gmap string string) (now : Z)
    : completion JsVal :=
  let fallback := Ok (QuizState_toJS (getInitialQuizState questions now)) in
  let saved := storage !! STORAGE_KEY in
  match item_truthy saved with
  | Some text =>
    match
      try_catch
        (parsedState ← JSON_parse text;
         parsed_answers ← get_property (Some parsedState) P_answers;
         answers_length ← get_property parsed_answers P_length;
         if strict_equals_number answers_length (Z.of_nat (length questions)) then
           parsed_startTime ← get_property (Some parsedState) P_startTime;
           Ok (Some (JObj (set_property (prop_key P_startTime)
                             (or_number parsed_startTime now)
                             (spread parsedState))))
         else Ok None)
        (fun e => Ok None)
    with
    | Ok (Some adopted) => Ok adopted
    | Ok None => fallback
    | Throw e => Throw e
    end
  | None => fallback
  end.

(** The save effect, with dependencies [[quizState, isQuizStarted]]. *)
Definition save_effect (s : Store) : Store :=
  if isQuizStarted s && negb (isCompleted (quizState s)) then
    {| quizState := quizState s;
       user := user s;
       isQuizStarted := isQuizStarted s;
       localStorage :=
         <[STORAGE_KEY := JSON_stringify (QuizState_toJS (quizState s))]> (localStorage s) |}
  else s.

(** The render that follows a handler: the save effect runs when one of its
    dependencies has changed. *)
Definition commit (rendered : Store) (p : Pending) : Store :=
  if quizStateSet p || negb (Bool.eqb (isQuizStarted rendered) (isQuizStarted (pending p)))
  then save_effect (pending p)
  else pending p.

(** The handlers.  [rendered] is the render whose closure the handler is:
    the handler reads [quizState] from it, while an updater passed to
    [setQuizState] receives the pending state as [prev]. *)

Definition startQuiz (now : Z) (rendered : Store) : action :=
  setIsQuizStarted true ;;;
  setItem START_STORAGE_KEY "true" ;;;
  if negb (isCompleted (quizState rendered)) then
    setQuizState (fun prev =>
      {| currentQuestion := currentQuestion prev;
         answers := answers (getInitialQuizState questions now);
         timeRemaining := QUIZ_DURATION;
         isCompleted := isCompleted prev;
         startTime := now |})
  else skip.

Definition updateAnswer (questionId0 : Z) (answer : option Z) : action :=
  setQuizState (fun prev =>
    {| currentQuestion := currentQuestion prev;
       answers := map (fun a =>
                    if bool_decide (questionId a = questionId0)
                    then {| questionId := questionId a;
                            selectedAnswer := answer;
                            isAnswered := negb (bool_decide (answer = None)) |}
                    else a) (answers prev);
       timeRemaining := timeRemaining prev;
       isCompleted := isCompleted prev;
       startTime := startTime prev |}).

Definition set_currentQuestion (f : QuizState -> Z) : action :=
  setQuizState (fun prev =>
    {| currentQuestion := f prev;
       answers := answers prev;
       timeRemaining := timeRemaining prev;
       isCompleted := isCompleted prev;
       startTime := startTime prev |}).

Definition goToQuestion (questionIndex : Z) : action :=
  if (0 <=? questionIndex) && (questionIndex <? Z.of_nat (length questions)) then
    set_currentQuestion (fun prev => questionIndex)
  else skip.

Definition nextQuestion : action :=
  set_currentQuestion (fun prev =>
    Z.min (currentQuestion prev + 1) (Z.of_nat (length questions) - 1)).

Definition previousQuestion : action :=
  set_currentQuestion (fun prev => Z.max (currentQuestion prev - 1) 0).

Definition skipQuestion (rendered : Store) : action :=
  if currentQuestion (quizState rendered) <? Z.of_nat (length questions) - 1 then
    nextQuestion
  else skip.

Definition submitQuiz : action :=
  setQuizState (fun prev =>
    {| currentQuestion := currentQuestion prev;
       answers := answers prev;
       timeRemaining := timeRemaining prev;
       isCompleted := true;
       startTime := startTime prev |}) ;;;
  setItem COMPLETED_STORAGE_KEY "true" ;;;
  removeItem STORAGE_KEY.

Definition resetQuiz (now : Z) : action :=
  setQuizState (fun _ => getInitialQuizState questions now) ;;;
  setIsQuizStarted false ;;;
  removeItem STORAGE_KEY ;;;
  removeItem START_STORAGE_KEY ;;;
  removeItem COMPLETED_STORAGE_KEY ;;;
  removeItem USER_STORAGE_KEY ;;;
  setUserState None.

Definition updateTimer (timeRemaining0 : Z) (rendered : Store) : action :=
  if negb (isCompleted (quizState rendered)) then
    setQuizState (fun prev =>
      {| currentQuestion := currentQuestion prev;
         answers := answers prev;
         timeRemaining := timeRemaining0;
         isCompleted := isCompleted prev;
         startTime := startTime prev |})
  else skip.

Definition setUser (u : User) : action :=
  setUserState (Some u) ;;;
  setItem USER_STORAGE_KEY (JSON_stringify u).

(** [getUnansweredQuestions] *)
Definition getUnansweredQuestions (rendered : Store) : list Z :=
  map (fun '(index, answer) => Z.of_nat index)
    (filter (fun '(index, answer) => isAnswered answer = false)
       (imap (fun index answer => (index, answer)) (answers (quizState rendered)))).

(** The body of the [forEach] callback: the new value of [correctCount]. *)
Definition count_answer (correctCount : Z) (userAnswer : UserAnswer) : Z :=
  match List.find (fun q => bool_decide (id q = questionId userAnswer)) questions with
  | Some questionData =>
      if bool_decide (selectedAnswer userAnswer = Some (correctAnswer questionData))
      then correctCount + 1
      else correctCount
  | None => correctCount
  end.

(** [calculateScore] *)
Definition calculateScore (rendered : Store) : Z :=
  if negb (isCompleted (quizState rendered)) then 0
  else
    let correctCount := 0 in
    fold_left count_answer (answers (quizState rendered)) correctCount.

(** The operations of the context value that change the store. *)
Inductive Op : Type :=
  | OpSetUser (u : User)
  | OpUpdateAnswer (questionId0 : Z) (answer : option Z)
  | OpGoToQuestion (questionIndex : Z)
  | OpNextQuestion
  | OpPreviousQuestion
  | OpSkipQuestion
  | OpSubmitQuiz
  | OpResetQuiz (now : Z)
  | OpUpdateTimer (timeRemaining0 : Z)
  | OpStartQuiz (now : Z).

Definition handler (op : Op) (rendered : Store) : action :=
  match op with
  | OpSetUser u => setUser u
  | OpUpdateAnswer q a => updateAnswer q a
  | OpGoToQuestion i => goToQuestion i
  | OpNextQuestion => nextQuestion
  | OpPreviousQuestion => previousQuestion
  | OpSkipQuestion => skipQuestion rendered
  | OpSubmitQuiz => submitQuiz
  | OpResetQuiz now => resetQuiz now
  | OpUpdateTimer t => updateTimer t rendered
  | OpStartQuiz now => startQuiz now rendered
  end.

(** One event: the handler of the current render runs, then the provider
    renders again and its effects run. *)
Definition step (op : Op) (s : Store) : Store :=
  commit s (handler op s {| pending := s; quizStateSet := false |}).

Definition run (ops : list Op) (s : Store) : Store :=
  fold_left (fun s op => step op s) ops s.

(** Mounting the provider around an initial [quizState]: the load effect
    reads the user and the started flag, and the save effect runs once more
    when the flag turned [isQuizStarted] on.  [JSON.parse(savedUser)] is not
    guarded, so its exception leaves the effect. *)
Definition mount (initial : QuizState) (storage : gmap string string)
    : completion Store :=
  let savedUser := storage !! USER_STORAGE_KEY in
  loaded_user ←
    match item_truthy savedUser with
    | Some text => u ← JSON_parse text; Ok (Some u)
    | None => Ok None
    end;
  let savedQuizStarted := storage !! START_STORAGE_KEY in
  let started := bool_decide (savedQuizStarted = Some "true"%string) in
  let first := {| quizState := initial; user := None;
                  isQuizStarted := false; localStorage := storage |} in
  Ok (commit first
        {| pending := {| quizState := initial; user := loaded_user;
                         isQuizStarted := started; localStorage := storage |};
           quizStateSet := false |}).

(** The stores the program can be in: the provider was mounted on some
    content of [localStorage] whose initial state is a [QuizState], and any
    number of events followed. *)
Inductive reachable : Store -> Prop :=
  | reachable_mount (storage : gmap string string) (now : Z) (initial : QuizState)
      (s : Store) :
      quizState_initializer storage now = Ok (QuizState_toJS initial) ->
      mount initial storage = Ok s ->
      reachable s
  | reachable_step (op : Op) (s : Store) :
      reachable s ->
      reachable (step op s).

(** *** Notions used to state the properties *)


(** The spec's words for a record that scores: a question of the bank has
    the record's [questionId], and the record's [selectedAnswer] is that
    question's [correctAnswer]. *)
Definition answered_correctly (a : UserAnswer) : Prop :=
  Exists (fun q => id q = questionId a /\ selectedAnswer a = Some (correctAnswer q))
    questions.

#[global] Instance answered_correctly_dec a : Decision (answered_correctly a).
Proof. unfold answered_correctly. apply _. Defined.

(** [parsedState.answers.length] *)
Definition answers_length (parsedState : JsVal) : completion (option JsVal) :=
  parsed_answers ← get_property (Some parsedState) P_answers;
  get_property parsed_answers P_length.

(** The stored text is adopted: it is there, it is not empty, it parses,
    and the [length] of its [answers] is the number of questions. *)
Definition adoptable (storage : gmap string string) (parsedState : JsVal) : Prop :=
  exists saved,
    storage !! STORAGE_KEY = Some saved
    /\ saved <> ""%string
    /\ JSON_parse saved = Ok parsedState
    /\ answers_length parsedState = Ok (Some (JNum (Z.of_nat (length questions)))).

(** The adopted object: the parsed one with [startTime] kept when it is
    truthy and set to the current time otherwise. *)
Definition adopted (parsedState : JsVal) (now : Z) : JsVal :=
  match parsedState with
  | JObj properties =>
      JObj (set_property "startTime"
              (or_number (own_property "startTime" properties) now) properties)
  | _ => JObj [("startTime"%string, JNum now)]
  end.

(** The state that adopting a stored [QuizState] yields. *)
Definition with_startTime_filled (stored : QuizState) (now : Z) : QuizState :=
  {| currentQuestion := currentQuestion stored;
     answers := answers stored;
     timeRemaining := timeRemaining stored;
     isCompleted := isCompleted stored;
     startTime := if bool_decide (startTime stored = 0) then now else startTime stored |}.

(** What holds in every reachable store: one record per question, and the
    in-progress slot holds the serialized state while the session is started
    and not completed. *)
Definition store_invariant (s : Store) : Prop :=
  length (answers (quizState s)) = length questions
  /\ (isQuizStarted s = true -> isCompleted (quizState s) = false ->
      localStorage s !! STORAGE_KEY
      = Some (JSON_stringify (QuizState_toJS (quizState s)))).

End Provider.

(* ===================================================================== *)
(** ** Question.tsx                                                        *)
(* ===================================================================== *)

Module Presenter.

(** [interface ShuffledOption] *)
Record ShuffledOption : Type := mkShuffledOption {
  originalIndex : Z;
  value : string
}.

(** [Math.floor] on the rationals. *)
Definition Math_floor (q : Q) : Z := Qfloor q.

(** [a[j]] for an array [a] and a number [j]: [undefined] outside the array. *)
Definition js_index {T} (a : list T) (j : Z) : option T :=
  if 0 <=? j then a !! Z.to_nat j else None.

(** [[a[i], a[j]] = [a[j], a[i]]]: the right-hand side is read first, then
    [a[i]] and [a[j]] are written in this order.  Both reads are inside the
    array whenever [0 <= j <= i < a.length], which is the only way the loop
    below uses it for samples of [Math.random] in [0, 1); the embedding
    leaves the array as it is otherwise. *)
Definition swap {T} (a : list T) (i : nat) (j : Z) : list T :=
  match js_index a j, a !! i with
  | Some aj, Some ai => <[Z.to_nat j := ai]> (<[i := aj]> a)
  | _, _ => a
  end.

(** The body of [for (let i = newArray.length - 1; i > 0; i--)]: [i] is the
    loop counter, [calls] counts the calls of [Math.random] made so far. *)
Fixpoint shuffle_loop {T} (random : nat -> Q) (calls : nat) (i : nat)
    (newArray : list T) : list T :=
  match i with
  | O => newArray
  | S i' =>
      let j := Math_floor (random calls * inject_Z (Z.of_nat i + 1)) in
      shuffle_loop random (S calls) i' (swap newArray i j)
  end.

(** [shuffleArray] *)
Definition shuffleArray {T} (random : nat -> Q) (array : list T) : list T :=
  let newArray := array in
  shuffle_loop random 0 (length newArray - 1)%nat newArray.

(** [question.options.map((option, index) => ({originalIndex: index, value: option}))] *)
Definition optionsWithIndex (options : list string) : list ShuffledOption :=
  imap (fun index option => mkShuffledOption (Z.of_nat index) option) options.

(** The value computed inside [useMemo]. *)
Definition shuffledOptions (random : nat -> Q) (options : list string)
    : list ShuffledOption :=
  shuffleArray random (optionsWithIndex options).

(** The platform's contract for [Math.random]. *)
Definition unit_interval (random : nat -> Q) : Prop :=
  forall k : nat, (0 <= random k)%Q /\ (random k < 1)%Q.

(** [selectedOriginalIndex === shuffledOption.originalIndex], where
    [selectedOriginalIndex] is [currentAnswer?.selectedAnswer]: [undefined]
    when the question has no record, [null] when it is not answered. *)
Inductive selected : Type :=
  | SelUndefined
  | SelNull
  | SelNumber (o : Z).

Definition isSelected (selectedOriginalIndex : selected) (shuffledOption : ShuffledOption)
    : bool :=
  match selectedOriginalIndex with
  | SelNumber o => bool_decide (o = originalIndex shuffledOption)
  | _ => false
  end.

(** The flags of the buttons of one render, by display position. *)
Definition render_flags (selectedOriginalIndex : selected)
    (shuffled : list ShuffledOption) : list bool :=
  map (isSelected selectedOriginalIndex) shuffled.

(** [quizState.answers.find(a => a.questionId === question.id)?.selectedAnswer] *)
Definition selectedOriginalIndex (s : Store) (q : Question) : selected :=
  match List.find (fun a => bool_decide (questionId a = id q)) (answers (quizState s)) with
  | None => SelUndefined
  | Some currentAnswer =>
      match selectedAnswer currentAnswer with
      | None => SelNull
      | Some o => SelNumber o
      end
  end.

(** [handleAnswerSelect]: reading [originalIndex] of [undefined] throws. *)
Definition handleAnswerSelect (q : Question) (shuffled : list ShuffledOption)
    (selectedShuffledIndex : Z) : completion action :=
  match js_index shuffled selectedShuffledIndex with
  | None => Throw TypeError
  | Some shuffledOption =>
      let originalIndexToSave := originalIndex shuffledOption in
      Ok (updateAnswer (id q) (Some originalIndexToSave))
  end.

(** The event [onClick={() => handleAnswerSelect(index)}] on the button at
    display position [index], followed by the render it causes. *)
Definition click `{JSON} (q : Question) (shuffled : list ShuffledOption)
    (index : nat) (s : Store) : completion Store :=
  a ← handleAnswerSelect q shuffled (Z.of_nat index);
  Ok (commit s (a {| pending := s; quizStateSet := false |})).

End Presenter.

(* ===================================================================== *)
(** ** A model of the platform's [JSON] object                             *)
(* ===================================================================== *)

(** [JSON.stringify] and [JSON.parse] on the values of [JsVal]: the output
    has no white space, the parser accepts white space between tokens.
    Numbers are the integer literals. *)

Module Json.

Local Open Scope string_scope.

(** *** Printing *)

Definition print_number (n : Z) : string := NilEmpty.string_of_int (Z.to_int n).

Definition hex_digit (n : N) : ascii :=
  if (n <? 10)%N then ascii_of_N (48 + n) else ascii_of_N (87 + n).

(** The escape sequence of one character of a string. *)
Definition escape_char (c : ascii) : string :=
  let n := N_of_ascii c in
  if Ascii.eqb c "034" then String "\" (String "034" "")
  else if Ascii.eqb c "\" then "\\"
  else if (n =? 8)%N then "\b"
  else if (n =? 9)%N then "\t"
  else if (n =? 10)%N then "\n"
  else if (n =? 12)%N then "\f"
  else if (n =? 13)%N then "\r"
  else if (n <? 32)%N then
    String "\" (String "u" (String "0" (String "0"
      (String (hex_digit (n / 16)) (String (hex_digit (n mod 16)) "")))))
  else String c "".

Fixpoint escape (s : string) : string :=
  match s with
  | "" => ""
  | String c rest => escape_char c ++ escape rest
  end.

Definition quote (s : string) : string := String "034" (escape s ++ String "034" "").

Fixpoint print (v : JsVal) : string :=
  match v with
  | JNull => "null"
  | JBool true => "true"
  | JBool false => "false"
  | JNum n => print_number n
  | JStr s => quote s
  | JArr [] => "[]"
  | JArr (x :: l) =>
      String "[" (print x ++
        (fix tail (l : list JsVal) : string :=
           match l with
           | [] => "]"
           | y :: l' => String "," (print y ++ tail l')
           end) l)
  | JObj [] => "{}"
  | JObj ((k, x) :: l) =>
      String "{" (quote k ++ String ":" (print x ++
        (fix tail (l : list (string * JsVal)) : string :=
           match l with
           | [] => "}"
           | (k', y) :: l' => String "," (quote k' ++ String ":" (print y ++ tail l'))
           end) l))
  end.

(** *** Parsing *)

Definition is_ws (c : ascii) : bool :=
  let n := N_of_ascii c in
  (n =? 32)%N || (n =? 9)%N || (n =? 10)%N || (n =? 13)%N.

Fixpoint skip_ws (s : string) : string :=
  match s with
  | String c rest => if is_ws c then skip_ws rest else s
  | "" => ""
  end.

Fixpoint strip_prefix (p s : string) : option string :=
  match p, s with
  | "", _ => Some s
  | String a p', String b s' => if Ascii.eqb a b then strip_prefix p' s' else None
  | _, _ => None
  end.

Definition is_digit (c : ascii) : bool :=
  let n := N_of_ascii c in (48 <=? n)%N && (n <=? 57)%N.

Definition is_number_char (c : ascii) : bool := is_digit c || Ascii.eqb c "-".

(** The longest prefix made of digits and minus signs, and what follows. *)
Fixpoint take_number (s : string) : string * string :=
  match s with
  | String c rest =>
      if is_number_char c then
        let '(digits, rest') := take_number rest in (String c digits, rest')
      else ("", s)
  | "" => ("", "")
  end.

(** An integer literal of JSON: no leading zero, [-0] is zero.  A literal
    with a fraction or an exponent is not an integer and is not covered. *)
Definition parse_number (s : string) : option (Z * string) :=
  let '(digits, rest) := take_number s in
  let integral :=
    match rest with
    | String c _ => negb (Ascii.eqb c "." || Ascii.eqb c "e" || Ascii.eqb c "E")
    | "" => true
    end in
  if negb integral then None
  else
    match NilEmpty.int_of_string digits with
    | Some d =>
        let n := Z.of_int d in
        if String.eqb (print_number n) digits then Some (n, rest)
        else if String.eqb digits "-0" then Some (0, rest)
        else None
    | None => None
    end.

Definition hex_value (c : ascii) : option N :=
  let n := N_of_ascii c in
  if (48 <=? n)%N && (n <=? 57)%N then Some (n - 48)%N
  else if (97 <=? n)%N && (n <=? 102)%N then Some (n - 87)%N
  else if (65 <=? n)%N && (n <=? 70)%N then Some (n - 55)%N
  else None.

(** The characters of a string literal after its opening quote, up to and
    including the closing quote.  An escape [\uXXXX] above [ÿ] has no
    character in an 8-bit string and is not covered. *)
Fixpoint parse_chars (s : string) : option (string * string) :=
  match s with
  | "" => None
  | String c rest =>
      if Ascii.eqb c "034" then Some ("", rest)
      else if Ascii.eqb c "\" then
        match rest with
        | String e rest' =>
            if Ascii.eqb e "034" then
              match parse_chars rest' with
              | Some (chars, r') => Some (String "034" chars, r') | None => None end
            else if Ascii.eqb e "\" then
              match parse_chars rest' with
              | Some (chars, r') => Some (String "\" chars, r') | None => None end
            else if Ascii.eqb e "/" then
              match parse_chars rest' with
              | Some (chars, r') => Some (String "/" chars, r') | None => None end
            else if Ascii.eqb e "b" then
              match parse_chars rest' with
              | Some (chars, r') => Some (String (ascii_of_N 8) chars, r') | None => None end
            else if Ascii.eqb e "f" then
              match parse_chars rest' with
              | Some (chars, r') => Some (String (ascii_of_N 12) chars, r') | None => None end
            else if Ascii.eqb e "n" then
              match parse_chars rest' with
              | Some (chars, r') => Some (String (ascii_of_N 10) chars, r') | None => None end
            else if Ascii.eqb e "r" then
              match parse_chars rest' with
              | Some (chars, r') => Some (String (ascii_of_N 13) chars, r') | None => None end
            else if Ascii.eqb e "t" then
              match parse_chars rest' with
              | Some (chars, r') => Some (String (ascii_of_N 9) chars, r') | None => None end
            else if Ascii.eqb e "u" then
              match rest' with
              | String h1 (String h2 (String h3 (String h4 rest''))) =>
                  match hex_value h1, hex_value h2, hex_value h3, hex_value h4 with
                  | Some 0%N, Some 0%N, Some a, Some b =>
                      match parse_chars rest'' with
                      | Some (chars, r') =>
                          Some (String (ascii_of_N (16 * a + b)) chars, r')
                      | None => None
                      end
                  | _, _, _, _ => None
                  end
              | _ => None
              end
            else None
        | "" => None
        end
      else if (N_of_ascii c <? 32)%N then None
      else
        match parse_chars rest with
        | Some (chars, r') => Some (String c chars, r')
        | None => None
        end
  end.

(** A later property with the same key replaces the value of the earlier
    one, which keeps its place.  (JavaScript also lists the keys that are
    array indices before the others; the model keeps the order of the
    text.) *)
Definition normalize_properties (l : list (string * JsVal)) : list (string * JsVal) :=
  fold_left (fun acc '(k, v) => set_property k v acc) l [].

Fixpoint parse_value (fuel : nat) (s : string) : option (JsVal * string) :=
  match fuel with
  | O => None
  | S fuel' =>
      match skip_ws s with
      | "" => None
      | String c rest as s' =>
          if Ascii.eqb c "n" then
            match strip_prefix "null" s' with Some r => Some (JNull, r) | None => None end
          else if Ascii.eqb c "t" then
            match strip_prefix "true" s' with Some r => Some (JBool true, r) | None => None end
          else if Ascii.eqb c "f" then
            match strip_prefix "false" s' with Some r => Some (JBool false, r) | None => None end
          else if Ascii.eqb c "034" then
            match parse_chars rest with
            | Some (chars, r) => Some (JStr chars, r)
            | None => None
            end
          else if Ascii.eqb c "[" then
            match skip_ws rest with
            | "" => None
            | String c1 r as rest1 =>
                if Ascii.eqb c1 "]" then Some (JArr [], r)
                else
                  match parse_value fuel' rest1 with
                  | Some (x, r1) =>
                      match parse_elements fuel' r1 with
                      | Some (l, r2) => Some (JArr (x :: l), r2)
                      | None => None
                      end
                  | None => None
                  end
            end
          else if Ascii.eqb c "{" then
            match skip_ws rest with
            | "" => None
            | String c1 r as rest1 =>
                if Ascii.eqb c1 "}" then Some (JObj [], r)
                else
                  match parse_member fuel' rest1 with
                  | Some (kx, r1) =>
                      match parse_members fuel' r1 with
                      | Some (l, r2) => Some (JObj (normalize_properties (kx :: l)), r2)
                      | None => None
                      end
                  | None => None
                  end
            end
          else if is_number_char c then
            match parse_number s' with
            | Some (n, r) => Some (JNum n, r)
            | None => None
            end
          else None
      end
  end

(** What follows an element of an array: the end of the array, or a comma
    and the next element. *)
with parse_elements (fuel : nat) (s : string) : option (list JsVal * string) :=
  match fuel with
  | O => None
  | S fuel' =>
      match skip_ws s with
      | "" => None
      | String c r =>
          if Ascii.eqb c "]" then Some ([], r)
          else if Ascii.eqb c "," then
            match parse_value fuel' r with
            | Some (y, r1) =>
                match parse_elements fuel' r1 with
                | Some (l, r2) => Some (y :: l, r2)
                | None => None
                end
            | None => None
            end
          else None
      end
  end

(** A key, a colon and a value. *)
with parse_member (fuel : nat) (s : string) : option ((string * JsVal) * string) :=
  match fuel with
  | O => None
  | S fuel' =>
      match skip_ws s with
      | "" => None
      | String c r =>
          if Ascii.eqb c "034" then
            match parse_chars r with
            | Some (k, r1) =>
                match skip_ws r1 with
                | "" => None
                | String c1 r2 =>
                    if Ascii.eqb c1 ":" then
                      match parse_value fuel' r2 with
                      | Some (x, r3) => Some ((k, x), r3)
                      | None => None
                      end
                    else None
                end
            | None => None
            end
          else None
      end
  end

with parse_members (fuel : nat) (s : string)
    : option (list (string * JsVal) * string) :=
  match fuel with
  | O => None
  | S fuel' =>
      match skip_ws s with
      | "" => None
      | String c r =>
          if Ascii.eqb c "}" then Some ([], r)
          else if Ascii.eqb c "," then
            match parse_member fuel' r with
            | Some (kx, r1) =>
                match parse_members fuel' r1 with
                | Some (l, r2) => Some (kx :: l, r2)
                | None => None
                end
            | None => None
            end
          else None
      end
  end.

(** [JSON.parse]: one value with nothing but white space after it. *)
Definition parse (text : string) : completion JsVal :=
  match parse_value (S (String.length text)) text with
  | Some (v, rest) =>
      match skip_ws rest with
      | "" => Ok v
      | _ => Throw SyntaxError
      end
  | None => Throw SyntaxError
  end.

(** The text after the first element of an array, and after the first
    member of an object. *)
Definition print_elements_tail : list JsVal -> string :=
  fix tail (l : list JsVal) : string :=
    match l with
    | [] => "]"
    | y :: l' => String "," (print y ++ tail l')
    end.

Definition print_members_tail : list (string * JsVal) -> string :=
  fix tail (l : list (string * JsVal)) : string :=
    match l with
    | [] => "}"
    | (k', y) :: l' => String "," (quote k' ++ String ":" (print y ++ tail l'))
    end.

End Json.

(** The objects of a value have pairwise distinct keys, as every object of
    JavaScript has. *)
Inductive unique_keys : JsVal -> Prop :=
  | unique_keys_null : unique_keys JNull
  | unique_keys_bool b : unique_keys (JBool b)
  | unique_keys_num n : unique_keys (JNum n)
  | unique_keys_str s : unique_keys (JStr s)
  | unique_keys_arr l : Forall unique_keys l -> unique_keys (JArr l)
  | unique_keys_obj l :
      NoDup (l.*1) -> Forall (fun kx => unique_keys kx.2) l -> unique_keys (JObj l).



Section JsonNotions.

Import Json.
Local Open Scope string_scope.

(** A character that ends a value in the output of [print]. *)
Definition delimited (rest : string) : Prop :=
  match rest with
  | "" => True
  | String c _ => c = ","%char \/ c = "]"%char \/ c = "}"%char
  end.

(** The first character of a printed value. *)
Definition value_start (c : ascii) : Prop :=
  is_ws c = false /\ Ascii.eqb c "]" = false /\ Ascii.eqb c "}" = false.

(** Reading back what [print] wrote, with enough fuel for its length. *)
Definition reads_back (v : JsVal) : Prop :=
  forall (fuel : nat) (rest : string),
    delimited rest ->
    (String.length (print v) <= fuel)%nat ->
    parse_value fuel (print v ++ rest) = Some (v, rest).

End JsonNotions.

(** The [JSON] object of the browser. *)
Definition browser_JSON : JSON :=
  {| JSON_parse := Json.parse; JSON_stringify := Json.print |}.

(* ===================================================================== *)
(** ** Example data                                                        *)
(* ===================================================================== *)

(** A sequence of samples in [0, 1) and the options of a question. *)
Definition sample_random (k : nat) : Q := ((7 * Z.of_nat k + 3) mod 10) # 10.


(** A bank of three questions with four options each, and a session on
    it: mounted on an empty [localStorage], started, answered, submitted. *)
Definition sample_questions : list Question :=
  [ {| id := 1; question := "first"; options := ["a"; "b"; "c"; "d"]%string;
       correctAnswer := 0 |};
    {| id := 2; question := "second"; options := ["e"; "f"; "g"; "h"]%string;
       correctAnswer := 2 |};
    {| id := 3; question := "third"; options := ["i"; "j"; "k"; "l"]%string;
       correctAnswer := 1 |} ].

Definition sample_question : Question :=
  {| id := 1; question := "first"; options := ["a"; "b"; "c"; "d"]%string;
     correctAnswer := 0 |}.

Definition sample_mounted : Store :=
  {| quizState := getInitialQuizState sample_questions 1000;
     user := None;
     isQuizStarted := false;
     localStorage := ∅ |}.

Definition sample_started : Store :=
  @step browser_JSON sample_questions (OpStartQuiz 2000) sample_mounted.

Definition sample_answered : Store :=
  @run browser_JSON sample_questions
    [OpUpdateAnswer 1 (Some 0); OpUpdateAnswer 2 (Some 2); OpUpdateAnswer 3 (Some 3)]
    sample_started.

Definition sample_completed : Store :=
  @step browser_JSON sample_questions OpSubmitQuiz sample_answered.

(* ===================================================================== *)
(** ** Notions for the further properties                                  *)
(* ===================================================================== *)

(** The store with another [quizState]: what [setQuizState] leaves. *)
Definition with_quizState (s : Store) (q : QuizState) : Store :=
  {| quizState := q;
     user := user s;
     isQuizStarted := isQuizStarted s;
     localStorage := localStorage s |}.

(** The record that [updateAnswer] writes for an id and an answer. *)
Definition answered_record (qid : Z) (answer : option Z) : UserAnswer :=
  {| questionId := qid;
     selectedAnswer := answer;
     isAnswered := match answer with Some _ => true | None => false end |}.

(** The states that the updaters of [updateAnswer], [updateTimer],
    [submitQuiz] and the navigation handlers return for [prev]. *)
Definition recorded (qid : Z) (answer : option Z) (prev : QuizState) : QuizState :=
  {| currentQuestion := currentQuestion prev;
     answers := map (fun a => if bool_decide (questionId a = qid)
                              then answered_record qid answer else a) (answers prev);
     timeRemaining := timeRemaining prev;
     isCompleted := isCompleted prev;
     startTime := startTime prev |}.

Definition ticked (timeRemaining0 : Z) (prev : QuizState) : QuizState :=
  {| currentQuestion := currentQuestion prev;
     answers := answers prev;
     timeRemaining := timeRemaining0;
     isCompleted := isCompleted prev;
     startTime := startTime prev |}.

Definition submitted (prev : QuizState) : QuizState :=
  {| currentQuestion := currentQuestion prev;
     answers := answers prev;
     timeRemaining := timeRemaining prev;
     isCompleted := true;
     startTime := startTime prev |}.

Definition moved (position : Z) (prev : QuizState) : QuizState :=
  {| currentQuestion := position;
     answers := answers prev;
     timeRemaining := timeRemaining prev;
     isCompleted := isCompleted prev;
     startTime := startTime prev |}.

(** [isAnswered] says whether [selectedAnswer] is a number. *)
Definition records_consistent (s : Store) : Prop :=
  Forall (fun a => isAnswered a = match selectedAnswer a with
                                  | Some _ => true
                                  | None => false
                                  end)
    (answers (quizState s)).

(** The records are those of the questions, in bank order. *)
Definition records_aligned (questions : list Question) (s : Store) : Prop :=
  questionId <$> answers (quizState s) = id <$> questions.

(** Operations that record answers or tick the timer. *)
Definition is_progress (op : Op) : Prop :=
  match op with
  | OpUpdateAnswer _ _ | OpUpdateTimer _ => True
  | _ => False
  end.

(** The started flag of [localStorage] says whether [isQuizStarted] is on. *)
Definition started_flag_agrees (s : Store) : Prop :=
  isQuizStarted s = bool_decide (localStorage s !! START_STORAGE_KEY = Some "true"%string).

(** Operations that leave the user record alone. *)
Definition keeps_user (op : Op) : Prop :=
  match op with
  | OpSetUser _ | OpResetQuiz _ => False
  | _ => True
  end.

(** The store holds the user [u] and its text. *)
Definition user_saved `{JSON} (u : User) (s : Store) : Prop :=
  user s = Some u /\ localStorage s !! USER_STORAGE_KEY = Some (JSON_stringify u).

(** One [updateAnswer] per question of a list, with the answer [choice]
    gives for it. *)
Definition answer_all (choice : Question -> option Z) (qs : list Question) : list Op :=
  map (fun q => OpUpdateAnswer (id q) (choice q)) qs.

(** The record that [answer_all] leaves in the place of a record. *)
Definition overridden (choice : Question -> option Z) (qs : list Question)
    (a : UserAnswer) : UserAnswer :=
  match List.find (fun q => bool_decide (id q = questionId a)) qs with
  | Some q => answered_record (id q) (choice q)
  | None => a
  end.

(** One event whose handler need not be the one of the current render: the
    action [a], built from the closures of whatever render created it, runs
    on the store [s]; its updaters receive the state of [s] as [prev]; then
    the provider renders again and its effects run.  [step op s] is
    [dispatch (handler op s) s], and the handlers that one event calls in a
    row are composed with [;;;]. *)
Definition dispatch `{JSON} (a : action) (s : Store) : Store :=
  commit s (a {| pending := s; quizStateSet := false |}).

(** A user record, and a bank without questions. *)
Definition sample_user : User :=
  JObj [("name"%string, JStr "Ani"); ("class"%string, JNum 12)].

Definition empty_bank : list Question := [].

(* ===================================================================== *)
(** * Properties                                                           *)
(* ===================================================================== *)

(** ** The shuffle *)

Section Shuffle.

Import Presenter.

Lemma floor_draw_range (u : Q) (i : nat) :
  (0 <= u)%Q -> (u < 1)%Q ->
  0 <= Math_floor (u * inject_Z (Z.of_nat i + 1)) <= Z.of_nat i.
Proof.
  intros H0 H1. unfold Math_floor.
  assert (Hpos : (0 < inject_Z (Z.of_nat i + 1))%Q).
  { change 0%Q with (inject_Z 0). rewrite <- Zlt_Qlt. lia. }
  split.
  - change 0 with (Qfloor (inject_Z 0)) at 1. apply Qfloor_resp_le.
    change (inject_Z 0) with 0%Q. apply Qmult_le_0_compat; [done|].
    by apply Qlt_le_weak.
  - assert (Hlt : (u * inject_Z (Z.of_nat i + 1) < inject_Z (Z.of_nat i + 1))%Q).
    { rewrite <- (Qmult_1_l (inject_Z (Z.of_nat i + 1))) at 2.
      by apply Qmult_lt_compat_r. }
    pose proof (Qfloor_le (u * inject_Z (Z.of_nat i + 1))) as Hfl.
    assert (Hz : (inject_Z (Qfloor (u * inject_Z (Z.of_nat i + 1)))
                  < inject_Z (Z.of_nat i + 1))%Q)
      by (eapply Qle_lt_trans; eauto).
    rewrite <- Zlt_Qlt in Hz. lia.
Qed.

Lemma swap_length {T} (a : list T) i j : length (swap a i j) = length a.
Proof.
  unfold swap. destruct (js_index a j), (a !! i); try done.
  by rewrite !length_insert.
Qed.

Lemma insert_insert_Permutation {T} (a : list T) (i j : nat) (ai aj : T) :
  a !! i = Some ai -> a !! j = Some aj ->
  <[j := ai]> (<[i := aj]> a) ≡ₚ a.
Proof.
  intros Hi Hj. destruct (decide (i = j)) as [->|Hne].
  - assert (ai = aj) by congruence. subst aj.
    rewrite (list_insert_id a j ai Hi). by rewrite (list_insert_id a j ai Hi).
  - set (b := <[i := aj]> a).
    assert (Hbi : b !! i = Some aj).
    { apply list_lookup_insert_eq. by eapply lookup_lt_Some. }
    assert (Hbj : b !! j = Some aj).
    { unfold b. by rewrite list_lookup_insert_ne. }
    assert (Hcj : <[j := ai]> b !! j = Some ai).
    { apply list_lookup_insert_eq. by eapply lookup_lt_Some. }
    assert (Hci : <[j := ai]> b !! i = Some aj).
    { by rewrite list_lookup_insert_ne. }
    (* remove position j, then position i, on both sides *)
    rewrite (delete_Permutation _ j ai Hcj).
    rewrite (delete_Permutation a i ai Hi).
    f_equiv.
    assert (Hdel : delete j (<[j := ai]> b) = delete j b).
    { apply list_eq. intros k.
      destruct (decide (k < j)%nat).
      - rewrite !list_lookup_delete_lt by done. by rewrite list_lookup_insert_ne by lia.
      - rewrite !list_lookup_delete_ge by lia. by rewrite list_lookup_insert_ne by lia. }
    rewrite Hdel.
    assert (Hdel' : delete i b = delete i a).
    { apply list_eq. intros k. unfold b.
      destruct (decide (k < i)%nat).
      - rewrite !list_lookup_delete_lt by done. by rewrite list_lookup_insert_ne by lia.
      - rewrite !list_lookup_delete_ge by lia. by rewrite list_lookup_insert_ne by lia. }
    rewrite <- Hdel'.
    apply (Permutation_cons_inv (a := aj)).
    rewrite <- (delete_Permutation b j aj Hbj).
    by rewrite <- (delete_Permutation b i aj Hbi).
Qed.

Lemma swap_Permutation {T} (a : list T) i j : swap a i j ≡ₚ a.
Proof.
  unfold swap, js_index. destruct (0 <=? j); [|done].
  destruct (a !! Z.to_nat j) as [aj|] eqn:Hj; [|done].
  destruct (a !! i) as [ai|] eqn:Hi; [|done].
  by apply insert_insert_Permutation.
Qed.

(** Inside the array the embedding of the swap is the exchange itself. *)
Lemma swap_in_range {T} (a : list T) (i : nat) (j : Z) :
  0 <= j <= Z.of_nat i -> (i < length a)%nat ->
  swap a i j !! i = a !! Z.to_nat j
  /\ swap a i j !! Z.to_nat j = a !! i
  /\ forall k, k <> i -> k <> Z.to_nat j -> swap a i j !! k = a !! k.
Proof.
  intros Hj Hi. unfold swap, js_index.
  replace (0 <=? j) with true by (symmetry; apply Z.leb_le; lia).
  destruct (lookup_lt_is_Some_2 a (Z.to_nat j) ltac:(lia)) as [aj Haj].
  destruct (lookup_lt_is_Some_2 a i Hi) as [ai Hai].
  rewrite Haj, Hai. repeat split.
  - destruct (decide (i = Z.to_nat j)) as [Heq|Hne].
    + rewrite <- Heq. rewrite list_lookup_insert_eq by (by rewrite length_insert).
      congruence.
    + rewrite list_lookup_insert_ne by done.
      by rewrite list_lookup_insert_eq.
  - by rewrite list_lookup_insert_eq by (rewrite length_insert; lia).
  - intros k Hki Hkj. by rewrite !list_lookup_insert_ne.
Qed.

Lemma shuffle_loop_Permutation {T} random calls i (a : list T) :
  shuffle_loop random calls i a ≡ₚ a.
Proof.
  revert calls a. induction i as [|i IH]; intros calls a; [done|].
  cbn [shuffle_loop]. rewrite IH. apply swap_Permutation.
Qed.

Lemma shuffleArray_Permutation {T} random (array : list T) :
  shuffleArray random array ≡ₚ array.
Proof. apply shuffle_loop_Permutation. Qed.

Lemma optionsWithIndex_originalIndex (opts : list string) :
  originalIndex <$> optionsWithIndex opts = Z.of_nat <$> seq 0 (length opts).
Proof.
  unfold optionsWithIndex. apply list_eq. intros k.
  rewrite !list_lookup_fmap, list_lookup_imap.
  destruct (opts !! k) as [x|] eqn:Hk; cbn.
  - rewrite lookup_seq_lt by (by eapply lookup_lt_Some). done.
  - rewrite lookup_seq_ge by (by apply lookup_ge_None). done.
Qed.

Lemma optionsWithIndex_value (opts : list string) :
  Forall (fun opt => exists o : nat,
            originalIndex opt = Z.of_nat o /\ opts !! o = Some (value opt))
    (optionsWithIndex opts).
Proof.
  apply Forall_lookup. intros k opt. unfold optionsWithIndex.
  rewrite list_lookup_imap. destruct (opts !! k) as [x|] eqn:Hk; [|done].
  cbn. intros [= <-]. by exists k.
Qed.

(** In a list without duplicates an element that occurs has one position. *)
Lemma NoDup_unique_position {A} (l : list A) (x : A) :
  NoDup l -> x ∈ l ->
  exists k, l !! k = Some x /\ forall k', l !! k' = Some x -> k' = k.
Proof.
  intros Hnd [k Hk]%list_elem_of_lookup. exists k. split; [done|].
  intros k' Hk'. by eapply NoDup_lookup.
Qed.

Lemma NoDup_of_nat_seq (n : nat) : NoDup (Z.of_nat <$> seq 0 n).
Proof. apply NoDup_fmap_2; [apply _ | apply NoDup_seq]. Qed.

(** C1. Whatever values [Math.random] returns in [0, 1): every draw [j] of
    the loop at counter [i] lies in [0, i]; the display order has as many
    entries as the question has options; its original indices are a
    permutation of [0, n); every original index below [n] sits at exactly
    one display position; and every entry still carries the option text of
    its original index. *)
Theorem shuffle_is_permutation (random : nat -> Q) (opts : list string) :
  unit_interval random ->
  let display := shuffledOptions random opts in
  let n := length opts in
  (forall calls i : nat,
     0 <= Math_floor (random calls * inject_Z (Z.of_nat i + 1)) <= Z.of_nat i)
  /\ length display = n
  /\ originalIndex <$> display ≡ₚ Z.of_nat <$> seq 0 n
  /\ (forall o : nat, (o < n)%nat ->
        exists k, (originalIndex <$> display) !! k = Some (Z.of_nat o)
          /\ forall k', (originalIndex <$> display) !! k' = Some (Z.of_nat o) -> k' = k)
  /\ (forall k opt, display !! k = Some opt ->
        exists o : nat, originalIndex opt = Z.of_nat o /\ opts !! o = Some (value opt)).
Proof.
  intros Hrandom display n.
  assert (Hperm : display ≡ₚ optionsWithIndex opts)
    by apply shuffleArray_Permutation.
  assert (Hidx : originalIndex <$> display ≡ₚ Z.of_nat <$> seq 0 n).
  { rewrite Hperm. by rewrite optionsWithIndex_originalIndex. }
  split; [|split; [|split; [|split]]].
  - intros calls i. destruct (Hrandom calls). by apply floor_draw_range.
  - rewrite Hperm. unfold optionsWithIndex. by rewrite length_imap.
  - done.
  - intros o Ho. apply NoDup_unique_position.
    + rewrite Hidx. apply NoDup_of_nat_seq.
    + rewrite Hidx. apply list_elem_of_fmap. exists o. split; [done|].
      apply elem_of_seq. lia.
  - intros k opt Hk.
    pose proof (optionsWithIndex_value opts) as Hall.
    rewrite <- Hperm in Hall.
    by eapply (proj1 (Forall_lookup _ _) Hall).
Qed.

Lemma sample_random_unit_interval : unit_interval sample_random.
Proof.
  intros k. unfold sample_random, Qle, Qlt. cbn.
  pose proof (Z.mod_pos_bound (7 * Z.of_nat k + 3) 10 ltac:(lia)). lia.
Defined.

Lemma shuffle_is_permutation_witness :
  unit_interval sample_random /\
  shuffledOptions sample_random ["a"; "b"; "c"; "d"]%string
  = [ mkShuffledOption 2 "c"; mkShuffledOption 3 "d";
      mkShuffledOption 0 "a"; mkShuffledOption 1 "b" ]%string /\
  length (shuffledOptions sample_random ["a"; "b"; "c"; "d"]%string) = 4%nat.
Proof.
  split; [apply sample_random_unit_interval|]. split; [vm_compute; reflexivity|].
  exact (proj1 (proj2 (shuffle_is_permutation sample_random
                         ["a"; "b"; "c"; "d"]%string
                         sample_random_unit_interval))).
Defined.

End Shuffle.

(** ** The session store *)

Ltac unfold_handler :=
  unfold handler, setUser, updateAnswer, goToQuestion, nextQuestion,
    previousQuestion, skipQuestion, submitQuiz, resetQuiz, updateTimer, startQuiz,
    set_currentQuestion, seq_action, setQuizState, setUserState, setIsQuizStarted,
    setItem, removeItem, on_localStorage, skip.

Section StoreFacts.

Context `{JSON}.
Variable questions : list Question.

Abbreviation step := (step questions).
Abbreviation run := (run questions).
Abbreviation count_answer := (count_answer questions).
Abbreviation answered_correctly := (answered_correctly questions).

Lemma save_effect_quizState s : quizState (save_effect s) = quizState s.
Proof. unfold save_effect. by destruct (_ && _). Qed.

Lemma save_effect_user s : user (save_effect s) = user s.
Proof. unfold save_effect. by destruct (_ && _). Qed.

Lemma save_effect_isQuizStarted s : isQuizStarted (save_effect s) = isQuizStarted s.
Proof. unfold save_effect. by destruct (_ && _). Qed.

Lemma commit_quizState s p : quizState (commit s p) = quizState (pending p).
Proof. unfold commit. destruct (_ || _); [apply save_effect_quizState|done]. Qed.

Lemma commit_user s p : user (commit s p) = user (pending p).
Proof. unfold commit. destruct (_ || _); [apply save_effect_user|done]. Qed.

Lemma commit_isQuizStarted s p : isQuizStarted (commit s p) = isQuizStarted (pending p).
Proof. unfold commit. destruct (_ || _); [apply save_effect_isQuizStarted|done]. Qed.

(** A handler that calls no setter and writes nothing leaves the store as
    it is: no render follows. *)
Lemma commit_skip s : commit s (skip {| pending := s; quizStateSet := false |}) = s.
Proof. unfold commit, skip. cbn. by rewrite eqb_reflx. Qed.

(** The save effect is the only writer of the in-progress slot. *)
Lemma save_effect_slot s v :
  localStorage (save_effect s) !! STORAGE_KEY = Some v ->
  localStorage s !! STORAGE_KEY = Some v
  \/ (isQuizStarted s = true /\ isCompleted (quizState s) = false
      /\ v = JSON_stringify (QuizState_toJS (quizState s))).
Proof.
  unfold save_effect.
  destruct (isQuizStarted s) eqn:Hs, (isCompleted (quizState s)) eqn:Hc; cbn; auto.
  rewrite lookup_insert_eq. intros [= <-]. auto.
Qed.

Lemma save_effect_other_key s k :
  k <> STORAGE_KEY -> localStorage (save_effect s) !! k = localStorage s !! k.
Proof.
  intros Hk. unfold save_effect. destruct (_ && _); [|done].
  cbn. by rewrite lookup_insert_ne.
Qed.

Lemma save_effect_completed s :
  isCompleted (quizState s) = true -> save_effect s = s.
Proof. intros Hc. unfold save_effect. rewrite Hc. by rewrite andb_false_r. Qed.

Lemma save_effect_not_started s :
  isQuizStarted s = false -> save_effect s = s.
Proof. intros Hc. unfold save_effect. by rewrite Hc. Qed.

Lemma run_app ops1 ops2 s : run (ops1 ++ ops2) s = run ops2 (run ops1 s).
Proof. unfold run. apply fold_left_app. Qed.

Lemma run_snoc ops op s : run (ops ++ [op]) s = step op (run ops s).
Proof. by rewrite run_app. Qed.

Lemma updateAnswer_matching_record (s : Store) (qid : Z) (answer : option Z) k a :
  answers (quizState s) !! k = Some a -> questionId a = qid ->
  answers (quizState (step (OpUpdateAnswer qid answer) s)) !! k
  = Some {| questionId := qid;
            selectedAnswer := answer;
            isAnswered := match answer with Some _ => true | None => false end |}.
Proof.
  intros Hk Hq. unfold step. rewrite commit_quizState. cbn.
  change (map ?f ?l) with (f <$> l). rewrite list_lookup_fmap, Hk. cbn.
  rewrite bool_decide_eq_true_2 by done. rewrite Hq. by destruct answer.
Qed.

(** C3. [updateAnswer] finds the records by [questionId]: a record with
    that id gets the given [selectedAnswer] and [isAnswered] exactly when
    the answer is not [null] (so [null] clears it); every other record, the
    number and order of the records and every other field of the state stay
    as they are; when no record has the id the answers do not change at
    all. *)
Theorem updateAnswer_by_questionId (s : Store) (qid : Z) (answer : option Z) :
  let s' := step (OpUpdateAnswer qid answer) s in
  let before := answers (quizState s) in
  let after := answers (quizState s') in
  length after = length before
  /\ (forall k a, before !! k = Some a -> questionId a = qid ->
        after !! k = Some {| questionId := qid;
                             selectedAnswer := answer;
                             isAnswered := match answer with
                                           | Some _ => true
                                           | None => false
                                           end |})
  /\ (forall k a, before !! k = Some a -> questionId a <> qid -> after !! k = Some a)
  /\ ((forall a, a ∈ before -> questionId a <> qid) -> after = before)
  /\ questionId <$> after = questionId <$> before
  /\ currentQuestion (quizState s') = currentQuestion (quizState s)
  /\ timeRemaining (quizState s') = timeRemaining (quizState s)
  /\ isCompleted (quizState s') = isCompleted (quizState s)
  /\ startTime (quizState s') = startTime (quizState s)
  /\ user s' = user s
  /\ isQuizStarted s' = isQuizStarted s.
Proof.
  intros s' before after. subst s' before after.
  unfold step. rewrite commit_quizState, commit_user, commit_isQuizStarted. cbn.
  set (f := fun a => if bool_decide (questionId a = qid) then _ else a).
  repeat split.
  - by rewrite length_map.
  - intros k a Hk Hq. change (map f ?l) with (f <$> l).
    rewrite list_lookup_fmap, Hk. cbn. unfold f.
    rewrite bool_decide_eq_true_2 by done. rewrite Hq. by destruct answer.
  - intros k a Hk Hq. change (map f ?l) with (f <$> l).
    rewrite list_lookup_fmap, Hk. cbn. unfold f.
    by rewrite bool_decide_eq_false_2.
  - intros Hnone. rewrite <- (map_id (answers (quizState s))) at 2.
    apply map_ext_in. intros a Ha. unfold f.
    rewrite bool_decide_eq_false_2; [done|].
    apply Hnone. by apply list_elem_of_In.
  - change (map f ?l) with (f <$> l). rewrite <- list_fmap_compose.
    apply list_fmap_ext. intros k a _. cbn. unfold f. by case_bool_decide.
Qed.


Lemma goToQuestion_out_of_range s p :
  ~ (0 <= p < Z.of_nat (length questions)) -> step (OpGoToQuestion p) s = s.
Proof.
  intros Hp. unfold step. cbn. unfold goToQuestion.
  destruct (0 <=? p) eqn:H0; cbn; [|apply commit_skip].
  destruct (p <? Z.of_nat (length questions)) eqn:H1; [|apply commit_skip].
  apply Z.leb_le in H0. apply Z.ltb_lt in H1. lia.
Qed.






Lemma calculateScore_unfold s :
  calculateScore questions s
  = if isCompleted (quizState s) then fold_left count_answer (answers (quizState s)) 0
    else 0.
Proof. unfold calculateScore. by destruct (isCompleted (quizState s)). Qed.

Lemma find_by_id_None (x : Z) :
  (forall q, q ∈ questions -> id q <> x) ->
  List.find (fun q => bool_decide (id q = x)) questions = None.
Proof.
  intros Hno. destruct (List.find _ questions) as [q|] eqn:Hf; [|done].
  apply find_some in Hf as [Hin Hq]. apply bool_decide_eq_true in Hq.
  exfalso. eapply Hno; [|done]. by apply list_elem_of_In.
Qed.

Lemma find_by_id_unique (qs : list Question) (q : Question) :
  NoDup (id <$> qs) -> q ∈ qs ->
  List.find (fun q' => bool_decide (id q' = id q)) qs = Some q.
Proof.
  induction qs as [|q0 qs IH]; intros Hnd Hin; [by apply elem_of_nil in Hin|].
  cbn. apply NoDup_cons in Hnd as [Hfresh Hnd].
  apply elem_of_cons in Hin as [->|Hin].
  - by rewrite bool_decide_eq_true_2.
  - rewrite bool_decide_eq_false_2; [by apply IH|].
    intros Heq. apply Hfresh. rewrite Heq. by apply list_elem_of_fmap_2.
Qed.

Lemma count_answer_correct acc a :
  NoDup (id <$> questions) ->
  count_answer acc a = if decide (answered_correctly a) then acc + 1 else acc.
Proof.
  intros Hnd. unfold count_answer.
  destruct (decide (answered_correctly a)) as [Hyes|Hno].
  - apply Exists_exists in Hyes as (q & Hin & Hid & Hsel).
    rewrite <- Hid, (find_by_id_unique questions q Hnd Hin).
    by rewrite bool_decide_eq_true_2.
  - destruct (List.find _ questions) as [q|] eqn:Hf; [|done].
    apply find_some in Hf as [Hin Hq]. apply bool_decide_eq_true in Hq.
    rewrite bool_decide_eq_false_2; [done|].
    intros Hsel. apply Hno, Exists_exists. exists q.
    split; [by apply list_elem_of_In|done].
Qed.

Lemma fold_count_answer l acc :
  NoDup (id <$> questions) ->
  fold_left count_answer l acc
  = acc + Z.of_nat (length (filter answered_correctly l)).
Proof.
  intros Hnd. revert acc. induction l as [|a l IH]; intros acc; [cbn; lia|].
  cbn [fold_left]. rewrite IH, (count_answer_correct acc a Hnd), filter_cons.
  destruct (decide (answered_correctly a)); cbn [length]; lia.
Qed.

Lemma fold_count_answer_app l1 l2 acc :
  fold_left count_answer (l1 ++ l2) acc
  = fold_left count_answer l2 (fold_left count_answer l1 acc).
Proof. apply fold_left_app. Qed.

(** C5. [calculateScore] is [0] while the quiz is not completed, whatever
    the answers are.  When it is completed and the ids of the bank are
    distinct, it is the number of records for which a question with the
    record's [questionId] exists and the record's [selectedAnswer] is that
    question's [correctAnswer].  A record whose [questionId] is the id of no
    question adds nothing: the score is the same as without that record. *)
Theorem calculateScore_counts_correct (s : Store) :
  (isCompleted (quizState s) = false -> calculateScore questions s = 0)
  /\ (isCompleted (quizState s) = true -> NoDup (id <$> questions) ->
        calculateScore questions s
        = Z.of_nat (length (filter answered_correctly (answers (quizState s)))))
  /\ (forall l1 a l2,
        answers (quizState s) = l1 ++ a :: l2 ->
        (forall q, q ∈ questions -> id q <> questionId a) ->
        ~ answered_correctly a
        /\ calculateScore questions s
           = calculateScore questions
               {| quizState := {| currentQuestion := currentQuestion (quizState s);
                                  answers := l1 ++ l2;
                                  timeRemaining := timeRemaining (quizState s);
                                  isCompleted := isCompleted (quizState s);
                                  startTime := startTime (quizState s) |};
                  user := user s;
                  isQuizStarted := isQuizStarted s;
                  localStorage := localStorage s |}).
Proof.
  repeat apply conj.
  - intros Hc. by rewrite calculateScore_unfold, Hc.
  - intros Hc Hnd. rewrite calculateScore_unfold, Hc.
    by rewrite (fold_count_answer _ 0 Hnd).
  - intros l1 a l2 Hans Hno. split.
    + intros (q & Hin & Hid & _)%Exists_exists. by eapply Hno.
    + rewrite !calculateScore_unfold. cbn. rewrite Hans.
      destruct (isCompleted (quizState s)); [|done].
      rewrite !fold_count_answer_app. cbn [fold_left]. f_equal.
      unfold count_answer. by rewrite (find_by_id_None _ Hno).
Qed.

(** What a handler does to the in-progress slot by itself: it may remove
    it, it never writes it. *)
Lemma handler_slot op s p v :
  localStorage (pending (handler questions op s p)) !! STORAGE_KEY = Some v ->
  localStorage (pending p) !! STORAGE_KEY = Some v.
Proof.
  destruct op; unfold_handler; cbn;
    repeat match goal with |- context [if ?b then _ else _] => destruct b end;
    cbn; try done.
  - by rewrite lookup_insert_ne.
  - by rewrite lookup_delete_eq.
  - rewrite lookup_delete_ne by done. rewrite lookup_delete_ne by done.
    rewrite lookup_delete_ne by done. by rewrite lookup_delete_eq.
  - by rewrite lookup_insert_ne.
  - by rewrite lookup_insert_ne.
Qed.

Lemma step_slot op s v :
  localStorage (step op s) !! STORAGE_KEY = Some v ->
  localStorage s !! STORAGE_KEY = Some v
  \/ (isQuizStarted (step op s) = true
      /\ isCompleted (quizState (step op s)) = false
      /\ v = JSON_stringify (QuizState_toJS (quizState (step op s)))).
Proof.
  unfold step, commit. destruct (_ || _).
  - intros [Hold|Hnew]%save_effect_slot.
    + left. by apply handler_slot in Hold.
    + right. by rewrite save_effect_isQuizStarted, save_effect_quizState.
  - intros Hold. left. by apply handler_slot in Hold.
Qed.

(** One operation other than [resetQuiz] on a completed session. *)
Lemma step_completed op s :
  isCompleted (quizState s) = true ->
  (forall now, op <> OpResetQuiz now) ->
  isCompleted (quizState (step op s)) = true
  /\ timeRemaining (quizState (step op s)) = timeRemaining (quizState s)
  /\ (forall v, localStorage (step op s) !! STORAGE_KEY = Some v ->
                localStorage s !! STORAGE_KEY = Some v).
Proof.
  intros Hc Hop.
  assert (Hfields : isCompleted (quizState (step op s)) = true
                    /\ timeRemaining (quizState (step op s)) = timeRemaining (quizState s)).
  { unfold step. rewrite commit_quizState.
    destruct op; unfold_handler; cbn; rewrite ?Hc; cbn;
      repeat match goal with |- context [if ?b then _ else _] => destruct b end;
      cbn; try done.
    by destruct (Hop now). }
  destruct Hfields as [Hc' Ht]. repeat split; [done..|].
  intros v [Hold|(_ & Hnc & _)]%step_slot; [done|congruence].
Qed.

Lemma run_completed ops s :
  isCompleted (quizState s) = true ->
  Forall (fun op => forall now, op <> OpResetQuiz now) ops ->
  isCompleted (quizState (run ops s)) = true
  /\ timeRemaining (quizState (run ops s)) = timeRemaining (quizState s)
  /\ (forall v, localStorage (run ops s) !! STORAGE_KEY = Some v ->
                localStorage s !! STORAGE_KEY = Some v).
Proof.
  intros Hc Hops. revert s Hc.
  induction Hops as [|op ops Hop Hops IH]; intros s Hc; [done|].
  destruct (step_completed op s Hc Hop) as (Hc1 & Ht1 & Hs1).
  destruct (IH _ Hc1) as (Hc2 & Ht2 & Hs2).
  change (run (op :: ops) s) with (run ops (step op s)).
  repeat split; [done|congruence|auto].
Qed.

(** X21. When every handler is the one of the current render: on a
    completed session [updateTimer] changes nothing at all, and
    over any sequence of operations without [resetQuiz] the session stays
    completed, [timeRemaining] keeps its value and nothing is written into
    the in-progress slot of [localStorage].  [updateAnswer] still rewrites
    the records of the given id in memory, and leaves [localStorage] as it
    is.  In every state, a value that an operation leaves in the in-progress
    slot was there before or is the serialized state of a session that is
    started and not completed; the save effect does nothing on a session
    that is not started or is completed. *)
Theorem completed_session_is_frozen (s : Store) :
  isCompleted (quizState s) = true ->
  (forall t, step (OpUpdateTimer t) s = s)
  /\ (forall ops,
        Forall (fun op => forall now, op <> OpResetQuiz now) ops ->
        isCompleted (quizState (run ops s)) = true
        /\ timeRemaining (quizState (run ops s)) = timeRemaining (quizState s)
        /\ (forall v, localStorage (run ops s) !! STORAGE_KEY = Some v ->
                      localStorage s !! STORAGE_KEY = Some v))
  /\ (forall qid answer,
        let s' := step (OpUpdateAnswer qid answer) s in
        (forall k a, answers (quizState s) !! k = Some a -> questionId a = qid ->
           exists a', answers (quizState s') !! k = Some a'
                      /\ selectedAnswer a' = answer
                      /\ isAnswered a' = match answer with
                                         | Some _ => true
                                         | None => false
                                         end)
        /\ localStorage s' = localStorage s)
  /\ (forall (s0 : Store) (op : Op) (v : string),
        localStorage (step op s0) !! STORAGE_KEY = Some v ->
        localStorage s0 !! STORAGE_KEY = Some v
        \/ (isQuizStarted (step op s0) = true
            /\ isCompleted (quizState (step op s0)) = false
            /\ v = JSON_stringify (QuizState_toJS (quizState (step op s0)))))
  /\ (forall s0 : Store,
        isQuizStarted s0 = false \/ isCompleted (quizState s0) = true ->
        save_effect s0 = s0).
Proof.
  intros Hc. repeat apply conj.
  - intros t. unfold step. cbn. unfold updateTimer. rewrite Hc. apply commit_skip.
  - intros ops Hops. by apply run_completed.
  - intros qid answer s'. subst s'. split.
    + intros k a Hk Hq.
      eexists. split; [by apply (updateAnswer_matching_record s qid answer k a)|done].
    + unfold step, commit. cbn.
      rewrite save_effect_completed; [done|]. cbn. exact Hc.
  - intros s0 op v. apply step_slot.
  - intros s0 [Hs|Hd]; [by apply save_effect_not_started|by apply save_effect_completed].
Qed.

(** C7. [resetQuiz], after any sequence of operations from any store:
    the state is the fresh one (position [0], one unanswered record per
    question in bank order, the full duration, not completed), the session
    is not started, no user is set, the four keys are gone from
    [localStorage] and every other key is as it was. *)
Theorem resetQuiz_wipes_session (s0 : Store) (ops : list Op) (now : Z) :
  let before := run ops s0 in
  let s := step (OpResetQuiz now) before in
  quizState s = getInitialQuizState questions now
  /\ currentQuestion (quizState s) = 0
  /\ answers (quizState s)
     = map (fun q => {| questionId := id q; selectedAnswer := None;
                        isAnswered := false |}) questions
  /\ Forall (fun a => selectedAnswer a = None /\ isAnswered a = false)
       (answers (quizState s))
  /\ questionId <$> answers (quizState s) = id <$> questions
  /\ timeRemaining (quizState s) = 5400000
  /\ isCompleted (quizState s) = false
  /\ isQuizStarted s = false
  /\ user s = None
  /\ localStorage s !! STORAGE_KEY = None
  /\ localStorage s !! START_STORAGE_KEY = None
  /\ localStorage s !! COMPLETED_STORAGE_KEY = None
  /\ localStorage s !! USER_STORAGE_KEY = None
  /\ (forall k, k <> STORAGE_KEY -> k <> START_STORAGE_KEY ->
                k <> COMPLETED_STORAGE_KEY -> k <> USER_STORAGE_KEY ->
                localStorage s !! k = localStorage before !! k).
Proof.
  intros before s. subst s. generalize before. clear before. intros b.
  assert (Hstore : step (OpResetQuiz now) b
    = {| quizState := getInitialQuizState questions now;
         user := None;
         isQuizStarted := false;
         localStorage :=
           delete USER_STORAGE_KEY (delete COMPLETED_STORAGE_KEY
             (delete START_STORAGE_KEY (delete STORAGE_KEY (localStorage b)))) |}).
  { unfold step, commit. cbn [handler resetQuiz seq_action setQuizState quizStateSet
      setIsQuizStarted removeItem on_localStorage setUserState orb].
    by rewrite save_effect_not_started. }
  rewrite Hstore. cbn. repeat apply conj; try done.
  - apply Forall_forall. intros a Ha. apply list_elem_of_fmap in Ha as (q & -> & _). done.
  - change (map ?f ?l) with (f <$> l). rewrite <- list_fmap_compose. done.
  - rewrite !lookup_delete_ne by done. by rewrite lookup_delete_eq.
  - rewrite !lookup_delete_ne by done. by rewrite lookup_delete_eq.
  - rewrite !lookup_delete_ne by done. by rewrite lookup_delete_eq.
  - by rewrite lookup_delete_eq.
  - intros k H1 H2 H3 H4. by rewrite !lookup_delete_ne.
Qed.

Lemma startQuiz_pending (s : Store) (now : Z) :
  startQuiz questions now s {| pending := s; quizStateSet := false |}
  = {| pending :=
         {| quizState :=
              if isCompleted (quizState s) then quizState s
              else {| currentQuestion := currentQuestion (quizState s);
                      answers := answers (getInitialQuizState questions now);
                      timeRemaining := QUIZ_DURATION;
                      isCompleted := false;
                      startTime := now |};
            user := user s;
            isQuizStarted := true;
            localStorage := <[START_STORAGE_KEY := "true"%string]> (localStorage s) |};
       quizStateSet := negb (isCompleted (quizState s)) |}.
Proof.
  unfold startQuiz, seq_action, setIsQuizStarted, setItem, on_localStorage,
    setQuizState, skip.
  destruct (isCompleted (quizState s)) eqn:Hc; cbn; [|by rewrite Hc].
  by destruct (quizState s).
Qed.


End StoreFacts.

(** ** The option presenter on top of the store *)

Section Selection.

Import Presenter.
Context `{JSON}.

Lemma js_index_of_nat {T} (a : list T) (k : nat) : js_index a (Z.of_nat k) = a !! k.
Proof.
  unfold js_index. rewrite Nat2Z.id.
  by replace (0 <=? Z.of_nat k) with true by (symmetry; apply Z.leb_le; lia).
Qed.

Lemma shuffledOptions_NoDup random opts :
  NoDup (originalIndex <$> shuffledOptions random opts).
Proof.
  assert (Hperm : shuffledOptions random opts ≡ₚ optionsWithIndex opts)
    by apply shuffleArray_Permutation.
  rewrite Hperm, optionsWithIndex_originalIndex. apply NoDup_of_nat_seq.
Qed.

Lemma shuffledOptions_originalIndex random opts :
  originalIndex <$> shuffledOptions random opts ≡ₚ Z.of_nat <$> seq 0 (length opts).
Proof.
  assert (Hperm : shuffledOptions random opts ≡ₚ optionsWithIndex opts)
    by apply shuffleArray_Permutation.
  by rewrite Hperm, optionsWithIndex_originalIndex.
Qed.

Lemma shuffledOptions_length random opts :
  length (shuffledOptions random opts) = length opts.
Proof.
  assert (Hperm : shuffledOptions random opts ≡ₚ optionsWithIndex opts)
    by apply shuffleArray_Permutation.
  rewrite Hperm. unfold optionsWithIndex. by rewrite length_imap.
Qed.

(** The flags of a render whose stored selection is the original index of
    the entry at position [k]: that position and no other. *)
Lemma render_flags_at (display : list ShuffledOption) (k : nat) (opt : ShuffledOption) :
  NoDup (originalIndex <$> display) ->
  display !! k = Some opt ->
  forall i, (i < length display)%nat ->
    render_flags (SelNumber (originalIndex opt)) display !! i = Some (bool_decide (i = k)).
Proof.
  intros Hnd Hk i Hi. unfold render_flags.
  change (map ?f ?l) with (f <$> l). rewrite list_lookup_fmap.
  destruct (lookup_lt_is_Some_2 display i Hi) as [x Hx]. rewrite Hx. cbn. f_equal.
  destruct (decide (i = k)) as [->|Hne].
  - rewrite (bool_decide_eq_true_2 (k = k)) by done.
    apply bool_decide_eq_true_2. congruence.
  - rewrite (bool_decide_eq_false_2 (i = k)) by done.
    apply bool_decide_eq_false_2. intros Heq. apply Hne.
    eapply (NoDup_lookup _ i k (originalIndex x) Hnd).
    + by rewrite list_lookup_fmap, Hx.
    + rewrite list_lookup_fmap, Hk. cbn. by rewrite Heq.
Qed.

(** No flag is set when no entry has the stored original index. *)
Lemma render_flags_absent (display : list ShuffledOption) (sel : selected) :
  (forall o, sel = SelNumber o -> o ∉ originalIndex <$> display) ->
  render_flags sel display = replicate (length display) false.
Proof.
  intros Habs. unfold render_flags. induction display as [|x display IH]; [done|].
  cbn. f_equal.
  - destruct sel as [| |o]; cbn; try done.
    apply bool_decide_eq_false_2. intros ->.
    eapply Habs; [done|]. cbn. apply elem_of_cons. by left.
  - apply IH. intros o Ho Hin. eapply Habs; [done|]. cbn. apply elem_of_cons. by right.
Qed.

(** The record that [find] returns after [updateAnswer] on the same id. *)
Lemma find_after_updateAnswer (qid : Z) (answer : option Z) (l : list UserAnswer) :
  List.find (fun a => bool_decide (questionId a = qid))
    (map (fun a => if bool_decide (questionId a = qid)
                   then {| questionId := questionId a;
                           selectedAnswer := answer;
                           isAnswered := negb (bool_decide (answer = None)) |}
                   else a) l)
  = match List.find (fun a => bool_decide (questionId a = qid)) l with
    | Some a => Some {| questionId := questionId a;
                        selectedAnswer := answer;
                        isAnswered := negb (bool_decide (answer = None)) |}
    | None => None
    end.
Proof.
  induction l as [|a l IH]; [done|]. cbn.
  destruct (bool_decide (questionId a = qid)) eqn:Ha; cbn; rewrite Ha; [done|apply IH].
Qed.

Lemma find_questionId_is_Some (qid : Z) (l : list UserAnswer) :
  (exists a, a ∈ l /\ questionId a = qid) ->
  is_Some (List.find (fun a => bool_decide (questionId a = qid)) l).
Proof.
  intros (a & Hin & Hq).
  destruct (List.find _ l) as [b|] eqn:Hf; [by eexists|].
  exfalso. apply list_elem_of_In in Hin.
  pose proof (find_none _ _ Hf a Hin) as Hno. cbn in Hno.
  by rewrite bool_decide_eq_true_2 in Hno.
Qed.

Lemma click_is_updateAnswer (qs : list Question) (q : Question)
    (display : list ShuffledOption) (k : nat) (opt : ShuffledOption) (s : Store) :
  display !! k = Some opt ->
  click q display k s = Ok (step qs (OpUpdateAnswer (id q) (Some (originalIndex opt))) s).
Proof.
  intros Hk. unfold click, handleAnswerSelect. by rewrite js_index_of_nat, Hk.
Qed.

Lemma selectedOriginalIndex_after_click (qs : list Question) (q : Question)
    (o : Z) (s : Store) :
  (exists a, a ∈ answers (quizState s) /\ questionId a = id q) ->
  selectedOriginalIndex (step qs (OpUpdateAnswer (id q) (Some o)) s) q = SelNumber o.
Proof.
  intros Hrec. unfold selectedOriginalIndex, step. rewrite commit_quizState. cbn.
  rewrite find_after_updateAnswer.
  by destruct (find_questionId_is_Some _ _ Hrec) as [a ->].
Qed.

(** C2. For every question [q], store [s] and samples of [Math.random]:
    a click on display position [k] is [updateAnswer] with the question's id
    and the original index of the entry shown at [k]; when the stored
    selection is a number [o] below the number of options, exactly one
    display position has original index [o] and the flags of the render are
    set at that position only; when [o] is the index of no option, or the
    selection is [null] or [undefined], no flag is set; and after a click on
    position [k], in any other shuffle of the same question, the flagged
    position is the one that shows the very entry (original index and text)
    that was clicked. *)
Theorem selection_follows_original_index (qs : list Question) (q : Question)
    (s : Store) (random : nat -> Q) :
  unit_interval random ->
  let display := shuffledOptions random (options q) in
  let n := length (options q) in
  (forall k opt, display !! k = Some opt ->
     click q display k s
     = Ok (step qs (OpUpdateAnswer (id q) (Some (originalIndex opt))) s))
  /\ (forall o, selectedOriginalIndex s q = SelNumber o -> 0 <= o < Z.of_nat n ->
        exists k, (originalIndex <$> display) !! k = Some o
          /\ (forall k', (originalIndex <$> display) !! k' = Some o -> k' = k)
          /\ forall i, (i < n)%nat ->
               render_flags (selectedOriginalIndex s q) display !! i
               = Some (bool_decide (i = k)))
  /\ (forall o, selectedOriginalIndex s q = SelNumber o -> ~ (0 <= o < Z.of_nat n) ->
        render_flags (selectedOriginalIndex s q) display = replicate n false)
  /\ (selectedOriginalIndex s q = SelNull \/ selectedOriginalIndex s q = SelUndefined ->
        render_flags (selectedOriginalIndex s q) display = replicate n false)
  /\ (forall (random' : nat -> Q) k opt,
        unit_interval random' ->
        display !! k = Some opt ->
        (exists a, a ∈ answers (quizState s) /\ questionId a = id q) ->
        exists s' k',
          click q display k s = Ok s'
          /\ selectedOriginalIndex s' q = SelNumber (originalIndex opt)
          /\ shuffledOptions random' (options q) !! k' = Some opt
          /\ forall i, (i < n)%nat ->
               render_flags (selectedOriginalIndex s' q)
                 (shuffledOptions random' (options q)) !! i
               = Some (bool_decide (i = k'))).
Proof.
  intros Hrandom display n.
  assert (Hlen : length display = n) by apply shuffledOptions_length.
  assert (Hnd : NoDup (originalIndex <$> display)) by apply shuffledOptions_NoDup.
  assert (Hidx : originalIndex <$> display ≡ₚ Z.of_nat <$> seq 0 n)
    by apply shuffledOptions_originalIndex.
  repeat apply conj.
  - intros k opt Hk. by apply click_is_updateAnswer.
  - intros o Hsel Ho. rewrite Hsel.
    assert (Hin : o ∈ originalIndex <$> display).
    { rewrite Hidx. apply list_elem_of_fmap. exists (Z.to_nat o).
      split; [lia|]. apply elem_of_seq. lia. }
    destruct (NoDup_unique_position _ _ Hnd Hin) as (k & Hk & Huniq).
    exists k. split; [done|split; [done|]].
    rewrite list_lookup_fmap in Hk.
    destruct (display !! k) as [opt|] eqn:Hopt; [|done].
    cbn in Hk. injection Hk as <-.
    intros i Hi. apply render_flags_at; [done..|lia].
  - intros o Hsel Ho. rewrite <- Hlen. apply render_flags_absent.
    intros o' Ho'. rewrite Hsel in Ho'. injection Ho' as <-.
    rewrite Hidx. intros (m & -> & Hm%elem_of_seq)%list_elem_of_fmap. lia.
  - intros Hsel. rewrite <- Hlen. apply render_flags_absent.
    intros o Ho. destruct Hsel as [Hsel|Hsel]; congruence.
  - intros random' k opt Hrandom' Hk Hrec.
    assert (Hperm : shuffledOptions random' (options q) ≡ₚ display).
    { unfold display, shuffledOptions. by rewrite !shuffleArray_Permutation. }
    assert (Hin : opt ∈ shuffledOptions random' (options q)).
    { rewrite Hperm. by eapply list_elem_of_lookup_2. }
    apply list_elem_of_lookup in Hin as [k' Hk'].
    exists (step qs (OpUpdateAnswer (id q) (Some (originalIndex opt))) s), k'.
    split; [by apply click_is_updateAnswer|].
    rewrite (selectedOriginalIndex_after_click qs q _ s Hrec).
    split; [done|split; [done|]].
    intros i Hi. apply render_flags_at; [apply shuffledOptions_NoDup|done|].
    by rewrite shuffledOptions_length.
Qed.

End Selection.

(** ** The model of [JSON] reads back what it writes *)

Section JsonFacts.

Import Json.
Local Open Scope string_scope.

Lemma append_cons (c : ascii) (s r : string) : String c s ++ r = String c (s ++ r).
Proof. reflexivity. Qed.

Lemma append_empty (r : string) : "" ++ r = r.
Proof. reflexivity. Qed.

Lemma take_number_uint (d : Decimal.uint) (rest : string) :
  delimited rest ->
  take_number (NilEmpty.string_of_uint d ++ rest) = (NilEmpty.string_of_uint d, rest).
Proof.
  intros Hrest.
  induction d; cbn [NilEmpty.string_of_uint]; rewrite ?append_cons, ?append_empty;
    try (cbn; by rewrite IHd).
  destruct rest as [|c r]; [done|].
  cbn in Hrest. by destruct Hrest as [->|[->| ->]].
Qed.

Lemma take_number_print (n : Z) (rest : string) :
  delimited rest ->
  take_number (print_number n ++ rest) = (print_number n, rest).
Proof.
  intros Hrest. unfold print_number.
  destruct (Z.to_int n) as [d|d]; cbn [NilEmpty.string_of_int].
  - by apply take_number_uint.
  - rewrite append_cons. cbn. by rewrite take_number_uint.
Qed.

Lemma parse_number_print (n : Z) (rest : string) :
  delimited rest ->
  parse_number (print_number n ++ rest) = Some (n, rest).
Proof.
  intros Hrest. unfold parse_number. rewrite (take_number_print n rest Hrest).
  assert (Hint : (match rest with
                  | String c _ =>
                      negb (Ascii.eqb c "." || Ascii.eqb c "e" || Ascii.eqb c "E")
                  | "" => true
                  end) = true).
  { destruct rest as [|c r]; [done|]. cbn in Hrest.
    by destruct Hrest as [->|[->| ->]]. }
  rewrite Hint. cbn [negb].
  unfold print_number at 1. rewrite NilEmpty.isi, DecimalZ.of_to.
  by rewrite String.eqb_refl.
Qed.

Lemma string_of_uint_start (d : Decimal.uint) :
  d <> Decimal.Nil ->
  exists c r, NilEmpty.string_of_uint d = String c r /\ is_number_char c = true.
Proof. destruct d; try done; intros _; by eexists _, _. Qed.

Lemma print_number_start (n : Z) :
  exists c r, print_number n = String c r /\ is_number_char c = true.
Proof.
  unfold print_number. destruct n as [|p|p]; cbn [Z.to_int NilEmpty.string_of_int].
  - by eexists _, _.
  - apply string_of_uint_start, DecimalPos.Unsigned.to_uint_nonnil.
  - by eexists _, _.
Qed.

(** What the first character of a number excludes. *)
Lemma number_char_dispatch (c : ascii) :
  is_number_char c = true ->
  is_ws c = false /\ Ascii.eqb c "n" = false /\ Ascii.eqb c "t" = false
  /\ Ascii.eqb c "f" = false /\ Ascii.eqb c "034" = false /\ Ascii.eqb c "[" = false
  /\ Ascii.eqb c "{" = false /\ Ascii.eqb c "]" = false /\ Ascii.eqb c "}" = false.
Proof.
  destruct c as [[] [] [] [] [] [] [] []]; cbn; intros; done.
Qed.

(** The escape sequence of a character reads back as the character. *)
Lemma parse_chars_escape_char (c : ascii) (r : string) :
  parse_chars (escape_char c ++ r)
  = match parse_chars r with
    | Some (chars, r') => Some (String c chars, r')
    | None => None
    end.
Proof.
  destruct c as [[] [] [] [] [] [] [] []]; reflexivity.
Qed.

Lemma append_assoc (a b c : string) : (a ++ b) ++ c = a ++ (b ++ c).
Proof. induction a as [|x a IH]; [done|]. rewrite !append_cons. by rewrite IH. Qed.

Lemma parse_chars_escape (s rest : string) :
  parse_chars (escape s ++ String "034" rest) = Some (s, rest).
Proof.
  induction s as [|c s IH]; [done|].
  cbn [escape]. rewrite append_assoc, parse_chars_escape_char. by rewrite IH.
Qed.

Lemma JsVal_nested_ind (P : JsVal -> Prop) :
  P JNull ->
  (forall b, P (JBool b)) ->
  (forall n, P (JNum n)) ->
  (forall s, P (JStr s)) ->
  (forall l, Forall P l -> P (JArr l)) ->
  (forall l, Forall (fun kx => P kx.2) l -> P (JObj l)) ->
  forall v, P v.
Proof.
  intros Hnull Hbool Hnum Hstr Harr Hobj.
  fix IH 1. intros [| b | n | s | l | l].
  - apply Hnull.
  - apply Hbool.
  - apply Hnum.
  - apply Hstr.
  - apply Harr. induction l as [|x l IHl]; constructor; [apply IH|apply IHl].
  - apply Hobj. induction l as [|[k x] l IHl]; constructor; [apply IH|apply IHl].
Qed.

Lemma length_append (a b : string) :
  String.length (a ++ b) = (String.length a + String.length b)%nat.
Proof. induction a as [|c a IH]; [done|]. rewrite append_cons. cbn. by rewrite IH. Qed.

Lemma skip_ws_start (c : ascii) (r : string) :
  is_ws c = false -> skip_ws (String c r) = String c r.
Proof. intros Hc. cbn. by rewrite Hc. Qed.

Lemma parse_value_S (fuel : nat) (s : string) :
  parse_value (S fuel) s
  = match skip_ws s with
    | "" => None
    | String c rest as s' =>
        if Ascii.eqb c "n" then
          match strip_prefix "null" s' with Some r => Some (JNull, r) | None => None end
        else if Ascii.eqb c "t" then
          match strip_prefix "true" s' with Some r => Some (JBool true, r) | None => None end
        else if Ascii.eqb c "f" then
          match strip_prefix "false" s' with Some r => Some (JBool false, r) | None => None end
        else if Ascii.eqb c "034" then
          match parse_chars rest with
          | Some (chars, r) => Some (JStr chars, r)
          | None => None
          end
        else if Ascii.eqb c "[" then
          match skip_ws rest with
          | "" => None
          | String c1 r as rest1 =>
              if Ascii.eqb c1 "]" then Some (JArr [], r)
              else
                match parse_value fuel rest1 with
                | Some (x, r1) =>
                    match parse_elements fuel r1 with
                    | Some (l, r2) => Some (JArr (x :: l), r2)
                    | None => None
                    end
                | None => None
                end
          end
        else if Ascii.eqb c "{" then
          match skip_ws rest with
          | "" => None
          | String c1 r as rest1 =>
              if Ascii.eqb c1 "}" then Some (JObj [], r)
              else
                match parse_member fuel rest1 with
                | Some (kx, r1) =>
                    match parse_members fuel r1 with
                    | Some (l, r2) => Some (JObj (normalize_properties (kx :: l)), r2)
                    | None => None
                    end
                | None => None
                end
          end
        else if is_number_char c then
          match parse_number s' with
          | Some (n, r) => Some (JNum n, r)
          | None => None
          end
        else None
    end.
Proof. reflexivity. Qed.

Lemma print_start (v : JsVal) :
  exists c r, print v = String c r /\ value_start c.
Proof.
  destruct v as [| [] | n | s | [|x l] | [|[k x] l]];
    try (by eexists _, _).
  destruct (print_number_start n) as (c & r & Hn & Hc).
  exists c, r. split; [done|].
  destruct (number_char_dispatch c Hc) as (? & ? & ? & ? & ? & ? & ? & ? & ?).
  by repeat split.
Qed.

Lemma print_elements_tail_cons y l :
  print_elements_tail (y :: l) = String "," (print y ++ print_elements_tail l).
Proof. reflexivity. Qed.

Lemma print_members_tail_cons k y l :
  print_members_tail ((k, y) :: l)
  = String "," (quote k ++ String ":" (print y ++ print_members_tail l)).
Proof. reflexivity. Qed.

Lemma print_array_cons x l :
  print (JArr (x :: l)) = String "[" (print x ++ print_elements_tail l).
Proof. reflexivity. Qed.

Lemma print_object_cons k x l :
  print (JObj ((k, x) :: l))
  = String "{" (quote k ++ String ":" (print x ++ print_members_tail l)).
Proof. reflexivity. Qed.

Lemma print_elements_tail_delimited l rest :
  delimited (print_elements_tail l ++ rest).
Proof.
  destruct l; [change (print_elements_tail []) with "]"|rewrite print_elements_tail_cons];
    rewrite append_cons; cbn; auto.
Qed.

Lemma print_members_tail_delimited l rest :
  delimited (print_members_tail l ++ rest).
Proof.
  destruct l as [|[k x] l];
    [change (print_members_tail []) with "}"|rewrite print_members_tail_cons];
    rewrite append_cons; cbn; auto.
Qed.

Lemma normalize_properties_unique (l : list (string * JsVal)) :
  NoDup (l.*1) -> normalize_properties l = l.
Proof.
  unfold normalize_properties.
  assert (Hgen : forall acc, NoDup ((acc ++ l)%list.*1) ->
            fold_left (fun acc '(k, v) => set_property k v acc) l acc = (acc ++ l)%list).
  { induction l as [|[k v] l IH]; intros acc Hnd; cbn [fold_left].
    - by rewrite app_nil_r.
    - assert (Hset : set_property k v acc = (acc ++ [(k, v)])%list).
      { rewrite fmap_app in Hnd. apply NoDup_app in Hnd as (_ & Hdisj & _).
        assert (Hk : k ∉ acc.*1).
        { intros Hin. apply (Hdisj k Hin). cbn. apply elem_of_cons. by left. }
        clear -Hk. induction acc as [|[k0 v0] acc IHacc]; [done|].
        cbn. destruct (String.eqb k0 k) eqn:Hk0.
        - apply String.eqb_eq in Hk0. subst k0. exfalso. apply Hk. cbn.
          apply elem_of_cons. by left.
        - rewrite IHacc; [done|]. intros Hin. apply Hk. cbn. apply elem_of_cons.
          by right. }
      rewrite Hset, IH.
      + by rewrite <- app_assoc.
      + by rewrite <- app_assoc. }
  intros Hnd. by rewrite (Hgen []).
Qed.

Lemma parse_elements_S (fuel : nat) (s : string) :
  parse_elements (S fuel) s
  = match skip_ws s with
    | "" => None
    | String c r =>
        if Ascii.eqb c "]" then Some ([], r)
        else if Ascii.eqb c "," then
          match parse_value fuel r with
          | Some (y, r1) =>
              match parse_elements fuel r1 with
              | Some (l, r2) => Some (y :: l, r2)
              | None => None
              end
          | None => None
          end
        else None
    end.
Proof. reflexivity. Qed.

Lemma parse_member_S (fuel : nat) (s : string) :
  parse_member (S fuel) s
  = match skip_ws s with
    | "" => None
    | String c r =>
        if Ascii.eqb c "034" then
          match parse_chars r with
          | Some (k, r1) =>
              match skip_ws r1 with
              | "" => None
              | String c1 r2 =>
                  if Ascii.eqb c1 ":" then
                    match parse_value fuel r2 with
                    | Some (x, r3) => Some ((k, x), r3)
                    | None => None
                    end
                  else None
              end
          | None => None
          end
        else None
    end.
Proof. reflexivity. Qed.

Lemma parse_members_S (fuel : nat) (s : string) :
  parse_members (S fuel) s
  = match skip_ws s with
    | "" => None
    | String c r =>
        if Ascii.eqb c "}" then Some ([], r)
        else if Ascii.eqb c "," then
          match parse_member fuel r with
          | Some (kx, r1) =>
              match parse_members fuel r1 with
              | Some (l, r2) => Some (kx :: l, r2)
              | None => None
              end
          | None => None
          end
        else None
    end.
Proof. reflexivity. Qed.

Lemma parse_elements_print (l : list JsVal) :
  Forall reads_back l ->
  forall (fuel : nat) (rest : string),
    delimited rest ->
    (String.length (print_elements_tail l) <= fuel)%nat ->
    parse_elements fuel (print_elements_tail l ++ rest) = Some (l, rest).
Proof.
  induction 1 as [|y l Hy _ IH]; intros fuel rest Hrest Hfuel.
  - destruct fuel as [|fuel]; [cbn in Hfuel; lia|]. reflexivity.
  - rewrite print_elements_tail_cons in Hfuel |- *.
    destruct fuel as [|fuel]; [cbn in Hfuel; lia|].
    cbn [String.length] in Hfuel. rewrite length_append in Hfuel.
    rewrite append_cons, parse_elements_S, skip_ws_start by done.
    cbn [Ascii.eqb Bool.eqb]. rewrite append_assoc.
    rewrite (Hy fuel); [|apply print_elements_tail_delimited|lia].
    by rewrite IH by (done || lia).
Qed.

Lemma length_quote (k : string) : (2 <= String.length (quote k))%nat.
Proof. unfold quote. cbn [String.length]. rewrite length_append. cbn. lia. Qed.

Lemma parse_member_print (k : string) (x : JsVal) :
  reads_back x ->
  forall (fuel : nat) (rest : string),
    delimited rest ->
    (String.length (print x) < fuel)%nat ->
    parse_member fuel (quote k ++ String ":" (print x ++ rest)) = Some ((k, x), rest).
Proof.
  intros Hx fuel rest Hrest Hfuel.
  destruct fuel as [|fuel]; [lia|].
  unfold quote. rewrite append_cons, parse_member_S, skip_ws_start by done.
  cbn [Ascii.eqb Bool.eqb]. rewrite append_assoc, append_cons, append_empty.
  rewrite parse_chars_escape, skip_ws_start by done.
  cbn [Ascii.eqb Bool.eqb].
  rewrite (Hx fuel); [done|done|lia].
Qed.

Lemma parse_members_print (l : list (string * JsVal)) :
  Forall (fun kx => reads_back kx.2) l ->
  forall (fuel : nat) (rest : string),
    delimited rest ->
    (String.length (print_members_tail l) <= fuel)%nat ->
    parse_members fuel (print_members_tail l ++ rest) = Some (l, rest).
Proof.
  induction 1 as [|[k y] l Hy _ IH]; intros fuel rest Hrest Hfuel.
  - destruct fuel as [|fuel]; [cbn in Hfuel; lia|]. reflexivity.
  - rewrite print_members_tail_cons in Hfuel |- *.
    destruct fuel as [|fuel]; [cbn in Hfuel; lia|].
    cbn [String.length] in Hfuel. rewrite length_append in Hfuel.
    cbn [String.length] in Hfuel. rewrite length_append in Hfuel.
    pose proof (length_quote k) as Hk.
    rewrite append_cons, parse_members_S, skip_ws_start by done.
    cbn [Ascii.eqb Bool.eqb].
    rewrite append_assoc, append_cons, append_assoc.
    rewrite (parse_member_print k y Hy fuel);
      [|apply print_members_tail_delimited|lia].
    by rewrite IH by (done || lia).
Qed.

Lemma parse_value_print (v : JsVal) : unique_keys v -> reads_back v.
Proof.
  induction v as [| b | n | s | l IH | l IH] using JsVal_nested_ind;
    intros Huniq fuel rest Hrest Hfuel.
  - destruct fuel as [|fuel]; [cbn in Hfuel; lia|]. reflexivity.
  - destruct fuel as [|fuel]; [destruct b; cbn in Hfuel; lia|]. by destruct b.
  - destruct (print_number_start n) as (c & r & Hn & Hc).
    destruct (number_char_dispatch c Hc) as (Hws & H1 & H2 & H3 & H4 & H5 & H6 & _).
    destruct fuel as [|fuel]; [cbn in Hfuel; rewrite Hn in Hfuel; cbn in Hfuel; lia|].
    rewrite parse_value_S.
    cbn [print]. rewrite Hn, append_cons, skip_ws_start by done.
    rewrite H1, H2, H3, H4, H5, H6, Hc.
    rewrite <- append_cons, <- Hn. by rewrite parse_number_print.
  - destruct fuel as [|fuel]; [cbn in Hfuel; lia|].
    rewrite parse_value_S. cbn [print]. unfold quote.
    rewrite append_cons, skip_ws_start by done. cbn [Ascii.eqb Bool.eqb].
    rewrite append_assoc, append_cons, append_empty.
    by rewrite parse_chars_escape.
  - destruct fuel as [|fuel]; [destruct l; cbn in Hfuel; lia|].
    destruct l as [|x l]; [reflexivity|].
    inversion Huniq as [| | | |? Hall|]; subst.
    apply Forall_cons in Hall as [Hux Hul]. apply Forall_cons in IH as [IHx IHl].
    rewrite print_array_cons in Hfuel |- *.
    cbn [String.length] in Hfuel. rewrite length_append in Hfuel.
    rewrite parse_value_S, append_cons, skip_ws_start by done.
    cbn [Ascii.eqb Bool.eqb]. rewrite append_assoc.
    destruct (print_start x) as (c & r & Hx & Hws & Hc & _).
    rewrite Hx, append_cons, skip_ws_start by done. rewrite Hc.
    rewrite <- append_cons, <- Hx.
    rewrite (IHx Hux fuel); [|apply print_elements_tail_delimited|lia].
    rewrite parse_elements_print; [done| |done|lia].
    apply Forall_forall. intros y Hy. apply (proj1 (Forall_forall _ _) IHl y Hy).
    by apply (proj1 (Forall_forall _ _) Hul y Hy).
  - destruct fuel as [|fuel]; [destruct l as [|[??]?]; cbn in Hfuel; lia|].
    destruct l as [|[k x] l]; [reflexivity|].
    inversion Huniq as [| | | | |? Hnd Hall]; subst.
    apply Forall_cons in Hall as [Hux Hul]. apply Forall_cons in IH as [IHx IHl].
    cbn [snd] in Hux, IHx.
    rewrite print_object_cons in Hfuel |- *.
    cbn [String.length] in Hfuel. rewrite length_append in Hfuel.
    cbn [String.length] in Hfuel. rewrite length_append in Hfuel.
    pose proof (length_quote k) as Hk.
    rewrite parse_value_S, append_cons, skip_ws_start by done.
    cbn [Ascii.eqb Bool.eqb].
    rewrite append_assoc, append_cons, append_assoc.
    set (text := quote k ++ String ":" (print x ++ print_members_tail l ++ rest)).
    assert (Hq : exists r, text = String "034" r) by (by eexists).
    destruct Hq as [r Hq]. rewrite Hq, skip_ws_start by done.
    cbn [Ascii.eqb Bool.eqb]. rewrite <- Hq. unfold text.
    rewrite (parse_member_print k x (IHx Hux) fuel);
      [|apply print_members_tail_delimited|lia].
    rewrite parse_members_print; [|..].
    + by rewrite normalize_properties_unique.
    + apply Forall_forall. intros [k' y] Hy. cbn.
      apply (proj1 (Forall_forall _ _) IHl (k', y) Hy).
      by apply (proj1 (Forall_forall _ _) Hul (k', y) Hy).
    + done.
    + lia.
Qed.

(** [JSON.parse(JSON.stringify(v))] is [v]. *)
Lemma append_empty_r (a : string) : a ++ "" = a.
Proof. induction a as [|c a IH]; [done|]. by rewrite append_cons, IH. Qed.

Lemma parse_print (v : JsVal) : unique_keys v -> parse (print v) = Ok v.
Proof.
  intros Huniq. unfold parse.
  rewrite <- (append_empty_r (print v)) at 2.
  rewrite (parse_value_print v Huniq); [done|done|lia].
Qed.

End JsonFacts.

(** ** Initialization and persistence *)

Section Persistence.

Context `{JSON}.
Variable questions : list Question.

Abbreviation adoptable := (adoptable questions).
Abbreviation store_invariant := (store_invariant questions).

Lemma answers_length_object parsedState v :
  answers_length parsedState = Ok (Some v) ->
  exists properties, parsedState = JObj properties.
Proof.
  unfold answers_length.
  destruct parsedState; cbn; try done; by eexists.
Qed.

Lemma strict_equals_number_true v n :
  strict_equals_number v n = true <-> v = Some (JNum n).
Proof.
  unfold strict_equals_number. destruct v as [[]|]; try (split; done).
  case_bool_decide; split; intros; try done; congruence.
Qed.

Lemma initializer_adopts storage now parsedState :
  adoptable storage parsedState ->
  quizState_initializer questions storage now = Ok (adopted parsedState now).
Proof.
  intros (saved & Hsaved & Hne & Hparse & Hlen).
  destruct (answers_length_object _ _ Hlen) as [properties ->].
  unfold quizState_initializer. rewrite Hsaved. cbn [item_truthy].
  rewrite bool_decide_eq_false_2 by done.
  rewrite Hparse. unfold answers_length in Hlen. cbn in Hlen |- *.
  destruct (own_property "answers" properties) as [a|]; [|done].
  cbn in Hlen |- *. rewrite Hlen. cbn.
  by rewrite bool_decide_eq_true_2.
Qed.


Lemma initializer_adopts_typed storage now saved (stored : QuizState) :
  storage !! STORAGE_KEY = Some saved ->
  saved <> ""%string ->
  JSON_parse saved = Ok (QuizState_toJS stored) ->
  length (answers stored) = length questions ->
  quizState_initializer questions storage now
  = Ok (QuizState_toJS (with_startTime_filled stored now)).
Proof.
  intros Hsaved Hne Hparse Hlen.
  rewrite (initializer_adopts storage now (QuizState_toJS stored)).
  - unfold with_startTime_filled. cbn. unfold or_number, truthy. by case_bool_decide.
  - exists saved. repeat split; try done.
    unfold answers_length. cbn. by rewrite length_map, Hlen.
Qed.


Lemma UserAnswer_toJS_inj a b : UserAnswer_toJS a = UserAnswer_toJS b -> a = b.
Proof.
  destruct a as [qa [sa|] ia], b as [qb [sb|] ib]; cbn; intros [=]; by subst.
Qed.

Lemma QuizState_toJS_inj a b : QuizState_toJS a = QuizState_toJS b -> a = b.
Proof.
  destruct a as [ca aa ta ia sa], b as [cb ab tb ib sb]; cbn. intros [= -> Hans -> -> ->].
  f_equal. revert ab Hans. induction aa as [|x aa IH]; intros [|y ab]; cbn [map]; try done.
  intros Heq.
  assert (Hhd : UserAnswer_toJS x = UserAnswer_toJS y) by congruence.
  assert (Htl : map UserAnswer_toJS aa = map UserAnswer_toJS ab) by congruence.
  f_equal; [by apply UserAnswer_toJS_inj|by apply IH].
Qed.

Lemma own_property_set_property_ne key k v properties :
  String.eqb key k = false ->
  own_property k (set_property key v properties) = own_property k properties.
Proof.
  intros Hne. induction properties as [|[k0 v0] properties IH]; cbn.
  - by rewrite Hne.
  - destruct (String.eqb k0 key) eqn:Hk0; cbn.
    + apply String.eqb_eq in Hk0. subst k0. by rewrite Hne.
    + by rewrite IH.
Qed.

(** The answers of a typed initial state are as many as the questions. *)
Lemma initializer_typed_length storage now initial :
  quizState_initializer questions storage now = Ok (QuizState_toJS initial) ->
  length (answers initial) = length questions.
Proof.
  assert (Hfresh : Ok (QuizState_toJS (getInitialQuizState questions now))
                   = Ok (QuizState_toJS initial) ->
                   length (answers initial) = length questions).
  { intros Heq. assert (Hjs : QuizState_toJS (getInitialQuizState questions now)
                             = QuizState_toJS initial) by congruence.
    apply QuizState_toJS_inj in Hjs. subst initial. cbn. by rewrite length_map. }
  unfold quizState_initializer.
  destruct (item_truthy _) as [text|]; [|done].
  destruct (JSON_parse text) as [parsedState|e]; [|done].
  cbn [mbind completion_bind cbind].
  destruct (get_property (Some parsedState) P_answers) as [a|e] eqn:Ha; [|done].
  cbn [mbind completion_bind cbind].
  destruct (get_property a P_length) as [len|e] eqn:Hl; [|done].
  cbn [mbind completion_bind cbind].
  destruct (strict_equals_number len _) eqn:Heq; [|done].
  apply strict_equals_number_true in Heq. subst len.
  destruct parsedState as [| | | | |properties];
    try (cbn in Ha; first [discriminate Ha
                          |injection Ha as <-; cbn in Hl; discriminate Hl]).
  cbn in Ha. injection Ha as <-. cbn. intros [= Hprops].
  assert (Hans : own_property "answers" properties
                 = Some (JArr (map UserAnswer_toJS (answers initial)))).
  { rewrite <- (own_property_set_property_ne "startTime" "answers"
                  (or_number (own_property "startTime" properties) now)) by done.
    by rewrite Hprops. }
  rewrite Hans in Hl. cbn in Hl. injection Hl as Hl.
  rewrite length_map in Hl. lia.
Qed.

Lemma save_effect_saved s :
  isQuizStarted (save_effect s) = true ->
  isCompleted (quizState (save_effect s)) = false ->
  localStorage (save_effect s) !! STORAGE_KEY
  = Some (JSON_stringify (QuizState_toJS (quizState (save_effect s)))).
Proof.
  rewrite save_effect_isQuizStarted, save_effect_quizState.
  intros Hs Hc. unfold save_effect. rewrite Hs, Hc. cbn. by rewrite lookup_insert_eq.
Qed.

Lemma step_length op s :
  length (answers (quizState s)) = length questions ->
  length (answers (quizState (step questions op s))) = length questions.
Proof.
  intros Hlen. unfold step. rewrite commit_quizState.
  destruct op; unfold_handler; cbn;
    repeat match goal with |- context [if ?b then _ else _] => destruct b end;
    cbn; rewrite ?length_map; done.
Qed.

(** A handler that has not called [setQuizState] has left the state and the
    in-progress slot alone. *)
Lemma handler_untouched op s :
  let p := handler questions op s {| pending := s; quizStateSet := false |} in
  quizStateSet p = false ->
  quizState (pending p) = quizState s
  /\ localStorage (pending p) !! STORAGE_KEY = localStorage s !! STORAGE_KEY.
Proof.
  destruct op; unfold_handler; cbn;
    repeat match goal with |- context [if ?b then _ else _] => destruct b end;
    cbn; try done.
  - intros _. by rewrite lookup_insert_ne.
  - intros _. by rewrite lookup_insert_ne.
Qed.

Lemma step_invariant op s :
  store_invariant s -> store_invariant (step questions op s).
Proof.
  intros [Hlen Hslot]. split; [by apply step_length|].
  unfold step, commit.
  destruct (quizStateSet _) eqn:Hset; cbn [orb]; [apply save_effect_saved|].
  destruct (eqb _ _) eqn:Hstarted; cbn [negb]; [|apply save_effect_saved].
  apply eqb_prop in Hstarted.
  destruct (handler_untouched op s Hset) as [Hq Hl].
  rewrite Hq, Hl, <- Hstarted. exact Hslot.
Qed.

Lemma mount_invariant storage now initial s :
  quizState_initializer questions storage now = Ok (QuizState_toJS initial) ->
  mount initial storage = Ok s ->
  store_invariant s.
Proof.
  intros Hinit Hmount. unfold mount in Hmount.
  destruct (match item_truthy _ with Some _ => _ | None => _ end) as [u|e];
    [|done].
  cbn [mbind completion_bind cbind] in Hmount. injection Hmount as <-.
  split.
  - rewrite commit_quizState. cbn. by eapply initializer_typed_length.
  - unfold commit. cbn [quizStateSet pending isQuizStarted orb eqb].
    destruct (bool_decide _); cbn [negb]; [apply save_effect_saved|done].
Qed.

Lemma reachable_invariant s : reachable questions s -> store_invariant s.
Proof.
  induction 1 as [storage now initial s Hinit Hmount|op s _ IH].
  - by eapply mount_invariant.
  - by apply step_invariant.
Qed.

End Persistence.

Section RoundTrip.

Context `{JSON}.

(** The round trip for any [JSON] object that reads back the text it wrote
    for this state. *)
Lemma round_trip_for_codec (questions bank : list Question) (s : Store) (now : Z) :
  store_invariant questions s ->
  length bank = length questions ->
  JSON_stringify (QuizState_toJS (quizState s)) <> ""%string ->
  JSON_parse (JSON_stringify (QuizState_toJS (quizState s)))
  = Ok (QuizState_toJS (quizState s)) ->
  (forall storage : gmap string string,
     storage !! STORAGE_KEY = Some (JSON_stringify (QuizState_toJS (quizState s))) ->
     quizState_initializer bank storage now
     = Ok (QuizState_toJS (with_startTime_filled (quizState s) now)))
  /\ (isQuizStarted s = true -> isCompleted (quizState s) = false ->
        localStorage s !! STORAGE_KEY
        = Some (JSON_stringify (QuizState_toJS (quizState s)))
        /\ quizState_initializer bank (localStorage s) now
           = Ok (QuizState_toJS (with_startTime_filled (quizState s) now))).
Proof.
  intros [Hlen Hslot] Hbank Hne Hparse.
  assert (Hadopt : forall storage : gmap string string,
            storage !! STORAGE_KEY = Some (JSON_stringify (QuizState_toJS (quizState s))) ->
            quizState_initializer bank storage now
            = Ok (QuizState_toJS (with_startTime_filled (quizState s) now))).
  { intros storage Hsaved.
    eapply initializer_adopts_typed; eauto. congruence. }
  split; [done|].
  intros Hs Hc. split; [by apply Hslot|]. apply Hadopt. by apply Hslot.
Qed.

End RoundTrip.

Lemma QuizState_toJS_unique_keys (s : QuizState) : unique_keys (QuizState_toJS s).
Proof.
  assert (Hnd : forall l : list string,
            bool_decide (NoDup l) = true -> NoDup l)
    by (intros l; apply bool_decide_eq_true_1).
  unfold QuizState_toJS. constructor.
  - apply Hnd. by vm_compute.
  - repeat constructor. cbn.
    apply Forall_forall. intros v (a & -> & _)%list_elem_of_fmap.
    unfold UserAnswer_toJS. constructor.
    + apply Hnd. by vm_compute.
    + repeat constructor. cbn. destruct (selectedAnswer a); constructor.
Qed.

Lemma print_nonempty (v : JsVal) : Json.print v <> ""%string.
Proof. destruct (print_start v) as (c & r & -> & _). done. Qed.

(** C9. With the browser's [JSON]: for every reachable store, the text
    [JSON.stringify(quizState)] parses back to the same object, and the
    initializer, run for a bank with the same number of questions on a
    [localStorage] that holds this text, returns this state with
    [startTime] replaced by the current time when it is falsy, that is [0],
    and unchanged otherwise.  While the session is started and not
    completed, the [localStorage] of the store itself holds this text, so a
    reload restores the state. *)
Theorem persisted_state_round_trip (questions bank : list Question) (s : Store)
    (now : Z) :
  @reachable browser_JSON questions s ->
  length bank = length questions ->
  let text := Json.print (QuizState_toJS (quizState s)) in
  let restored := with_startTime_filled (quizState s) now in
  Json.parse text = Ok (QuizState_toJS (quizState s))
  /\ (forall storage : gmap string string,
        storage !! STORAGE_KEY = Some text ->
        @quizState_initializer browser_JSON bank storage now
        = Ok (QuizState_toJS restored))
  /\ (isQuizStarted s = true -> isCompleted (quizState s) = false ->
        localStorage s !! STORAGE_KEY = Some text
        /\ @quizState_initializer browser_JSON bank (localStorage s) now
           = Ok (QuizState_toJS restored))
  /\ currentQuestion restored = currentQuestion (quizState s)
  /\ answers restored = answers (quizState s)
  /\ timeRemaining restored = timeRemaining (quizState s)
  /\ isCompleted restored = isCompleted (quizState s)
  /\ (startTime (quizState s) <> 0 -> restored = quizState s)
  /\ (startTime (quizState s) = 0 -> startTime restored = now).
Proof.
  intros Hreach Hbank text restored.
  assert (Hparse : Json.parse text = Ok (QuizState_toJS (quizState s)))
    by apply parse_print, QuizState_toJS_unique_keys.
  destruct (@round_trip_for_codec browser_JSON questions bank s now) as [Hany Hown];
    [by apply reachable_invariant|done|apply print_nonempty|exact Hparse|].
  repeat apply conj; try done.
  - intros Hst. subst restored. unfold with_startTime_filled.
    rewrite bool_decide_eq_false_2 by done. by destruct (quizState s).
  - intros Hst. subst restored. unfold with_startTime_filled. cbn.
    by rewrite bool_decide_eq_true_2.
Qed.

(** ** The properties on the example session *)

Section Examples.

Import Presenter.

(** The scenario of three questions with correct answers [0], [2], [1]. *)
Example scenario_unanswered_after_start :
  getUnansweredQuestions sample_started = [0; 1; 2].
Proof. vm_compute. reflexivity. Qed.

Example scenario_all_answered :
  getUnansweredQuestions sample_answered = [].
Proof. vm_compute. reflexivity. Qed.

Example scenario_score_before_submission :
  calculateScore sample_questions sample_answered = 0.
Proof. vm_compute. reflexivity. Qed.

Example scenario_score_after_submission :
  calculateScore sample_questions sample_completed = 2.
Proof. vm_compute. reflexivity. Qed.

Example scenario_persisted_text :
  localStorage sample_started !! STORAGE_KEY
  = Some (Json.print (QuizState_toJS (quizState sample_started))).
Proof. vm_compute. reflexivity. Qed.

Example scenario_slot_removed_by_submission :
  localStorage sample_completed !! STORAGE_KEY = None
  /\ localStorage sample_completed !! COMPLETED_STORAGE_KEY = Some "true"%string.
Proof. vm_compute. split; reflexivity. Qed.

Lemma sample_started_reachable : @reachable browser_JSON sample_questions sample_started.
Proof.
  apply reachable_step.
  apply (reachable_mount sample_questions ∅ 1000
           (getInitialQuizState sample_questions 1000)); reflexivity.
Defined.

Lemma sample_completed_is_completed : isCompleted (quizState sample_completed) = true.
Proof. vm_compute. reflexivity. Defined.

Lemma selection_follows_original_index_witness :
  unit_interval sample_random
  /\ click (H := browser_JSON) sample_question
       (shuffledOptions sample_random (options sample_question)) 0 sample_started
     = Ok (@step browser_JSON sample_questions (OpUpdateAnswer 1 (Some 2)) sample_started).
Proof.
  split; [apply sample_random_unit_interval|].
  apply (proj1 (@selection_follows_original_index browser_JSON sample_questions
                  sample_question sample_started sample_random
                  sample_random_unit_interval)
           0%nat (mkShuffledOption 2 "c")).
  vm_compute. reflexivity.
Defined.

Lemma completed_session_is_frozen_witness :
  isCompleted (quizState sample_completed) = true
  /\ @step browser_JSON sample_questions (OpUpdateTimer 5) sample_completed
     = sample_completed.
Proof.
  split; [apply sample_completed_is_completed|].
  apply (proj1 (@completed_session_is_frozen browser_JSON sample_questions
                  sample_completed sample_completed_is_completed)).
Defined.

Lemma persisted_state_round_trip_witness :
  @reachable browser_JSON sample_questions sample_started
  /\ length sample_questions = length sample_questions
  /\ @quizState_initializer browser_JSON sample_questions
       (localStorage sample_started) 3000
     = Ok (QuizState_toJS (quizState sample_started)).
Proof.
  split; [apply sample_started_reachable|]. split; [reflexivity|].
  destruct (persisted_state_round_trip sample_questions sample_questions
              sample_started 3000 sample_started_reachable eq_refl)
    as (_ & _ & Hreload & _ & _ & _ & _ & Hsame & _).
  destruct (Hreload ltac:(vm_compute; reflexivity) ltac:(vm_compute; reflexivity))
    as [_ Hinit].
  rewrite Hinit. do 2 apply f_equal. apply Hsame. vm_compute. discriminate.
Defined.

Lemma updateAnswer_by_questionId_witness :
  answers (quizState (@step browser_JSON sample_questions
                        (OpUpdateAnswer 2 (Some 2)) sample_started)) !! 1%nat
  = Some {| questionId := 2; selectedAnswer := Some 2; isAnswered := true |}.
Proof.
  apply (proj1 (proj2 (@updateAnswer_by_questionId browser_JSON sample_questions
                         sample_started 2 (Some 2)))
           1%nat {| questionId := 2; selectedAnswer := None; isAnswered := false |});
    reflexivity.
Defined.


Lemma sample_questions_distinct_ids : NoDup (id <$> sample_questions).
Proof. apply (bool_decide_unpack _). vm_compute. exact I. Defined.

Lemma calculateScore_counts_correct_witness :
  calculateScore sample_questions sample_completed
  = Z.of_nat (length (filter (answered_correctly sample_questions)
                        (answers (quizState sample_completed)))).
Proof.
  apply (proj1 (proj2 (@calculateScore_counts_correct sample_questions
                         sample_completed))
           sample_completed_is_completed sample_questions_distinct_ids).
Defined.

Lemma resetQuiz_wipes_session_witness :
  quizState (@step browser_JSON sample_questions (OpResetQuiz 7)
               (@run browser_JSON sample_questions [OpNextQuestion] sample_completed))
  = getInitialQuizState sample_questions 7.
Proof.
  apply (proj1 (@resetQuiz_wipes_session browser_JSON sample_questions
                  sample_completed [OpNextQuestion] 7)).
Defined.



(** The initializer on stored texts that are not a state. *)
Example initializer_on_text_that_does_not_parse :
  @quizState_initializer browser_JSON sample_questions
    {[ STORAGE_KEY := "[1,2"%string ]} 3000
  = Ok (QuizState_toJS (getInitialQuizState sample_questions 3000)).
Proof. vm_compute. reflexivity. Qed.

Example initializer_on_null :
  @quizState_initializer browser_JSON sample_questions
    {[ STORAGE_KEY := "null"%string ]} 3000
  = Ok (QuizState_toJS (getInitialQuizState sample_questions 3000)).
Proof. vm_compute. reflexivity. Qed.

Example initializer_on_object_without_answers :
  @quizState_initializer browser_JSON sample_questions
    {[ STORAGE_KEY := "{}"%string ]} 3000
  = Ok (QuizState_toJS (getInitialQuizState sample_questions 3000)).
Proof. vm_compute. reflexivity. Qed.

Example initializer_on_other_bank :
  @quizState_initializer browser_JSON (tail sample_questions)
    {[ STORAGE_KEY := Json.print (QuizState_toJS (quizState sample_answered)) ]} 3000
  = Ok (QuizState_toJS (getInitialQuizState (tail sample_questions) 3000)).
Proof. vm_compute. reflexivity. Qed.

(** A stored object without [startTime] gets the current time. *)
Example initializer_fills_startTime :
  @quizState_initializer browser_JSON sample_questions
    {[ STORAGE_KEY :=
         Json.print (JObj [("answers"%string, JArr [JNull; JNull; JNull]);
                           ("currentQuestion"%string, JNum 2)]) ]} 3000
  = Ok (JObj [("answers"%string, JArr [JNull; JNull; JNull]);
              ("currentQuestion"%string, JNum 2);
              ("startTime"%string, JNum 3000)]).
Proof. vm_compute. reflexivity. Qed.

(** The load effect does not guard [JSON.parse(savedUser)]. *)
Example mount_on_user_that_does_not_parse :
  @mount browser_JSON (getInitialQuizState sample_questions 1000)
    {[ USER_STORAGE_KEY := "{"%string ]}
  = Throw SyntaxError.
Proof. vm_compute. reflexivity. Qed.

End Examples.

(* ===================================================================== *)
(** * Further properties of the provider and the presenter                 *)
(* ===================================================================== *)

(** ** Unanswered positions *)

Section Unanswered.

Context `{JSON}.
Variable questions : list Question.

(** The positions of the unanswered records of a list whose first record
    has position [n]. *)
Lemma unanswered_from_elem (n : nat) (l : list UserAnswer) (z : Z) :
  z ∈ map (fun '(index, answer) => Z.of_nat index)
        (filter (fun '(index, answer) => isAnswered answer = false)
           (imap (fun index answer => ((n + index)%nat, answer)) l))
  <-> exists k a, z = Z.of_nat (n + k) /\ l !! k = Some a /\ isAnswered a = false.
Proof.
  change (map ?f ?x) with (f <$> x). rewrite list_elem_of_fmap. split.
  - intros ([i a] & -> & Hin). apply list_elem_of_filter in Hin as [Hun Hin].
    apply elem_of_lookup_imap in Hin as (k & b & Heq & Hk).
    injection Heq as -> ->. by exists k, b.
  - intros (k & a & -> & Hk & Hun). exists ((n + k)%nat, a). split; [done|].
    apply list_elem_of_filter. split; [done|].
    apply elem_of_lookup_imap. by exists k, a.
Qed.

Lemma unanswered_from_sorted (n : nat) (l : list UserAnswer) :
  StronglySorted Z.lt
    (map (fun '(index, answer) => Z.of_nat index)
       (filter (fun '(index, answer) => isAnswered answer = false)
          (imap (fun index answer => ((n + index)%nat, answer)) l))).
Proof.
  revert n. induction l as [|a l IH]; intros n; [constructor|].
  cbn [imap]. rewrite filter_cons.
  assert (Hrest : imap ((fun index answer => ((n + index)%nat, answer)) ∘ S) l
                  = imap (fun index answer => ((S n + index)%nat, answer)) l).
  { apply imap_ext. intros i x _. cbn. f_equal. lia. }
  rewrite Hrest.
  destruct (decide _) as [Hun|Han]; [|apply IH].
  cbn [map]. constructor; [apply IH|].
  apply Forall_forall. intros z Hz.
  apply unanswered_from_elem in Hz as (k & b & -> & _ & _). lia.
Qed.

Lemma ascending_NoDup (l : list Z) : StronglySorted Z.lt l -> NoDup l.
Proof.
  induction 1 as [|z l _ IH Hall]; constructor; [|done].
  intros Hin. apply (proj1 (Forall_forall _ _) Hall) in Hin. lia.
Qed.

Lemma getUnansweredQuestions_elem (s : Store) (k : nat) :
  Z.of_nat k ∈ getUnansweredQuestions s
  <-> exists a, answers (quizState s) !! k = Some a /\ isAnswered a = false.
Proof.
  unfold getUnansweredQuestions.
  rewrite (unanswered_from_elem 0 (answers (quizState s)) (Z.of_nat k)). split.
  - intros (k' & a & Heq & Hk & Hun). exists a.
    by replace k with k' by lia.
  - intros (a & Hk & Hun). by exists k, a.
Qed.

Lemma getUnansweredQuestions_range (s : Store) (z : Z) :
  z ∈ getUnansweredQuestions s ->
  0 <= z < Z.of_nat (length (answers (quizState s))).
Proof.
  unfold getUnansweredQuestions.
  rewrite (unanswered_from_elem 0 (answers (quizState s)) z).
  intros (k & a & -> & Hk%lookup_lt_Some & _). lia.
Qed.

(** X1. [getUnansweredQuestions] returns positions, not ids: the positions
    [k] whose record has [isAnswered = false], each once and in ascending
    order, all of them below the number of records. *)
Theorem getUnansweredQuestions_positions (s : Store) :
  (forall k : nat,
     Z.of_nat k ∈ getUnansweredQuestions s
     <-> exists a, answers (quizState s) !! k = Some a /\ isAnswered a = false)
  /\ (forall z, z ∈ getUnansweredQuestions s ->
        0 <= z < Z.of_nat (length (answers (quizState s))))
  /\ StronglySorted Z.lt (getUnansweredQuestions s)
  /\ NoDup (getUnansweredQuestions s).
Proof.
  repeat apply conj.
  - apply getUnansweredQuestions_elem.
  - apply getUnansweredQuestions_range.
  - exact (unanswered_from_sorted 0 (answers (quizState s))).
  - apply ascending_NoDup.
    exact (unanswered_from_sorted 0 (answers (quizState s))).
Qed.

End Unanswered.

(** ** The store after each operation *)

Section StepForms.

Context `{JSON}.
Variable questions : list Question.

Lemma QuizState_eta (q : QuizState) :
  {| currentQuestion := currentQuestion q; answers := answers q;
     timeRemaining := timeRemaining q; isCompleted := isCompleted q;
     startTime := startTime q |} = q.
Proof. by destruct q. Qed.

Lemma Store_eta (s : Store) :
  {| quizState := quizState s; user := user s;
     isQuizStarted := isQuizStarted s; localStorage := localStorage s |} = s.
Proof. by destruct s. Qed.

Lemma with_quizState_same (s : Store) : with_quizState s (quizState s) = s.
Proof. apply Store_eta. Qed.

Lemma step_updateAnswer_form (s : Store) (qid : Z) (answer : option Z) :
  step questions (OpUpdateAnswer qid answer) s
  = save_effect (with_quizState s (recorded qid answer (quizState s))).
Proof.
  unfold step, commit. cbn. f_equal. unfold with_quizState, recorded. do 2 f_equal.
  apply map_ext. intros a. case_bool_decide as Hq; [|done].
  unfold answered_record. rewrite Hq. by destruct answer.
Qed.


Lemma step_updateTimer_completed (s : Store) (t : Z) :
  isCompleted (quizState s) = true -> step questions (OpUpdateTimer t) s = s.
Proof.
  intros Hc. unfold step. cbn. unfold updateTimer. rewrite Hc. apply commit_skip.
Qed.

Lemma step_nextQuestion_form (s : Store) :
  step questions OpNextQuestion s
  = save_effect (with_quizState s
      (moved (Z.min (currentQuestion (quizState s) + 1)
                (Z.of_nat (length questions) - 1)) (quizState s))).
Proof. reflexivity. Qed.

Lemma step_previousQuestion_form (s : Store) :
  step questions OpPreviousQuestion s
  = save_effect (with_quizState s
      (moved (Z.max (currentQuestion (quizState s) - 1) 0) (quizState s))).
Proof. reflexivity. Qed.

Lemma step_goToQuestion_form (s : Store) (p : Z) :
  0 <= p < Z.of_nat (length questions) ->
  step questions (OpGoToQuestion p) s
  = save_effect (with_quizState s (moved p (quizState s))).
Proof.
  intros Hp. unfold step, commit. cbn. unfold goToQuestion.
  replace (0 <=? p) with true by (symmetry; apply Z.leb_le; lia).
  by replace (p <? Z.of_nat (length questions)) with true
    by (symmetry; apply Z.ltb_lt; lia).
Qed.

Lemma step_submitQuiz_form (s : Store) :
  step questions OpSubmitQuiz s
  = {| quizState := submitted (quizState s);
       user := user s;
       isQuizStarted := isQuizStarted s;
       localStorage :=
         delete STORAGE_KEY (<[COMPLETED_STORAGE_KEY := "true"%string]> (localStorage s)) |}.
Proof.
  unfold step, commit.
  cbn [handler submitQuiz seq_action setQuizState setItem removeItem on_localStorage
       quizStateSet orb pending quizState user isQuizStarted localStorage].
  by rewrite save_effect_completed.
Qed.

(** Saving twice in a row leaves what the second save leaves. *)
Lemma save_effect_again (s : Store) (q1 q2 : QuizState) :
  isCompleted q1 = isCompleted q2 ->
  save_effect (with_quizState (save_effect (with_quizState s q1)) q2)
  = save_effect (with_quizState s q2).
Proof.
  intros Hc. unfold save_effect, with_quizState.
  cbn [quizState user isQuizStarted localStorage]. rewrite <- Hc.
  destruct (isQuizStarted s) eqn:Hs, (isCompleted q1) eqn:Hq;
    cbn [andb negb quizState user isQuizStarted localStorage];
    rewrite ?Hs, <- ?Hc, ?Hq; cbn [andb negb]; try done.
  by rewrite insert_insert_eq.
Qed.

Lemma save_effect_with_quizState (s : Store) (q : QuizState) :
  quizState (save_effect (with_quizState s q)) = q.
Proof. by rewrite save_effect_quizState. Qed.

End StepForms.

(** ** Recording answers *)

Section Recording.

Context `{JSON}.
Variable questions : list Question.

Abbreviation step := (step questions).
Abbreviation run := (run questions).

Lemma answers_after_updateAnswer (s : Store) (qid : Z) (answer : option Z) :
  answers (quizState (step (OpUpdateAnswer qid answer) s))
  = map (fun a => if bool_decide (questionId a = qid)
                  then answered_record qid answer else a) (answers (quizState s)).
Proof. by rewrite step_updateAnswer_form, save_effect_with_quizState. Qed.

(** X2. After [updateAnswer] the unanswered positions are those of the
    records of another id that were unanswered, together with those of the
    records of the given id when the answer is [null]; recording a number
    never adds a position. *)
Theorem unanswered_after_updateAnswer (s : Store) (qid : Z) (answer : option Z) :
  let s' := step (OpUpdateAnswer qid answer) s in
  (forall k : nat,
     Z.of_nat k ∈ getUnansweredQuestions s'
     <-> exists a, answers (quizState s) !! k = Some a
           /\ (if bool_decide (questionId a = qid) then answer = None
               else isAnswered a = false))
  /\ (forall v k, answer = Some v ->
        Z.of_nat k ∈ getUnansweredQuestions s' ->
        Z.of_nat k ∈ getUnansweredQuestions s).
Proof.
  intros s'. subst s'.
  assert (Hiff : forall k : nat,
     Z.of_nat k ∈ getUnansweredQuestions (step (OpUpdateAnswer qid answer) s)
     <-> exists a, answers (quizState s) !! k = Some a
           /\ (if bool_decide (questionId a = qid) then answer = None
               else isAnswered a = false)).
  { intros k. rewrite getUnansweredQuestions_elem, answers_after_updateAnswer.
    change (map ?f ?l) with (f <$> l). rewrite list_lookup_fmap. split.
    - intros (a' & Hk & Hun).
      destruct (answers (quizState s) !! k) as [a|]; [|done].
      exists a. split; [done|]. cbn in Hk. injection Hk as <-.
      case_bool_decide; [|done]. by destruct answer.
    - intros (a & Hk & Hcase). rewrite Hk. cbn. eexists. split; [done|].
      case_bool_decide; [|done]. by rewrite Hcase. }
  split; [exact Hiff|].
  intros v k -> (a & Hk & Hcase)%Hiff. apply getUnansweredQuestions_elem.
  exists a. split; [done|]. by case_bool_decide.
Qed.

Lemma recorded_recorded_ne (q1 q2 : Z) (a1 a2 : option Z) (x : QuizState) :
  q1 <> q2 ->
  recorded q2 a2 (recorded q1 a1 x) = recorded q1 a1 (recorded q2 a2 x).
Proof.
  intros Hne. unfold recorded. cbn. f_equal. rewrite !map_map.
  apply map_ext. intros a.
  destruct (bool_decide (questionId a = q1)) eqn:E1,
           (bool_decide (questionId a = q2)) eqn:E2;
    cbn [questionId answered_record]; rewrite ?E1, ?E2.
  - apply bool_decide_eq_true_1 in E1. apply bool_decide_eq_true_1 in E2.
    exfalso. apply Hne. by rewrite <- E1, <- E2.
  - by rewrite bool_decide_eq_false_2.
  - by rewrite (bool_decide_eq_false_2 (q2 = q1)) by (intros E; by apply Hne).
  - done.
Qed.

Lemma recorded_recorded_eq (q : Z) (a1 a2 : option Z) (x : QuizState) :
  recorded q a2 (recorded q a1 x) = recorded q a2 x.
Proof.
  unfold recorded. cbn. f_equal. rewrite !map_map.
  apply map_ext. intros a.
  destruct (bool_decide (questionId a = q)) eqn:E;
    cbn [questionId answered_record]; rewrite ?E; [|done].
  by rewrite bool_decide_eq_true_2.
Qed.

Lemma two_updateAnswer_form (s : Store) (q1 q2 : Z) (a1 a2 : option Z) :
  step (OpUpdateAnswer q2 a2) (step (OpUpdateAnswer q1 a1) s)
  = save_effect (with_quizState s (recorded q2 a2 (recorded q1 a1 (quizState s)))).
Proof.
  rewrite !step_updateAnswer_form, save_effect_with_quizState.
  by apply save_effect_again.
Qed.

(** X3. Two [updateAnswer] calls for different ids give the same store in
    either order; for the same id the later call alone decides, so a call
    repeated is a call made once.  The equalities are of the whole store,
    [localStorage] included. *)
Theorem updateAnswer_composes (s : Store) (q1 q2 : Z) (a1 a2 : option Z) :
  (q1 <> q2 ->
   step (OpUpdateAnswer q2 a2) (step (OpUpdateAnswer q1 a1) s)
   = step (OpUpdateAnswer q1 a1) (step (OpUpdateAnswer q2 a2) s))
  /\ step (OpUpdateAnswer q1 a2) (step (OpUpdateAnswer q1 a1) s)
     = step (OpUpdateAnswer q1 a2) s
  /\ step (OpUpdateAnswer q1 a1) (step (OpUpdateAnswer q1 a1) s)
     = step (OpUpdateAnswer q1 a1) s.
Proof.
  repeat apply conj.
  - intros Hne. rewrite !two_updateAnswer_form. by rewrite recorded_recorded_ne.
  - rewrite two_updateAnswer_form, recorded_recorded_eq.
    by rewrite step_updateAnswer_form.
  - rewrite two_updateAnswer_form, recorded_recorded_eq.
    by rewrite step_updateAnswer_form.
Qed.


End Recording.

(** ** What the operations keep *)

Section Kept.

Context `{JSON}.
Variable questions : list Question.

Abbreviation step := (step questions).
Abbreviation run := (run questions).

Lemma fresh_answers_consistent (now : Z) :
  Forall (fun a => isAnswered a = match selectedAnswer a with
                                  | Some _ => true
                                  | None => false
                                  end)
    (answers (getInitialQuizState questions now)).
Proof.
  apply Forall_forall. intros a Ha. cbn in Ha.
  by apply list_elem_of_fmap in Ha as (q & -> & _).
Qed.

Lemma step_consistent (op : Op) (s : Store) :
  records_consistent s -> records_consistent (step op s).
Proof.
  unfold records_consistent. intros Hs.
  replace (quizState (step op s))
    with (quizState (pending (handler questions op s
                                {| pending := s; quizStateSet := false |})))
    by (symmetry; apply commit_quizState).
  destruct op; unfold_handler; cbn;
    repeat match goal with |- context [if ?b then _ else _] => destruct b end;
    cbn; try done; try exact (fresh_answers_consistent 0).
  apply Forall_forall. intros a Ha.
  apply list_elem_of_fmap in Ha as (b & -> & Hb).
  case_bool_decide; cbn; [by destruct answer|].
  by apply (proj1 (Forall_forall _ _) Hs).
Qed.

Lemma run_consistent (ops : list Op) (s : Store) :
  records_consistent s -> records_consistent (run ops s).
Proof.
  revert s. induction ops as [|op ops IH]; intros s Hs; [done|].
  apply IH. by apply step_consistent.
Qed.

Lemma resetQuiz_consistent (now : Z) (s : Store) :
  records_consistent (step (OpResetQuiz now) s).
Proof.
  unfold records_consistent.
  replace (quizState (step (OpResetQuiz now) s))
    with (getInitialQuizState questions now)
    by (symmetry; apply commit_quizState).
  apply fresh_answers_consistent.
Qed.

Lemma startQuiz_answers (now : Z) (s : Store) :
  isCompleted (quizState s) = false ->
  answers (quizState (step (OpStartQuiz now) s))
  = answers (getInitialQuizState questions now).
Proof.
  intros Hc.
  replace (quizState (step (OpStartQuiz now) s))
    with (quizState (pending (startQuiz questions now s
                                {| pending := s; quizStateSet := false |})))
    by (symmetry; apply commit_quizState).
  rewrite startQuiz_pending. cbn. by rewrite Hc.
Qed.

Lemma startQuiz_consistent (now : Z) (s : Store) :
  isCompleted (quizState s) = false ->
  records_consistent (step (OpStartQuiz now) s).
Proof.
  intros Hc. unfold records_consistent. rewrite (startQuiz_answers now s Hc).
  apply fresh_answers_consistent.
Qed.

Lemma consistent_unanswered (s : Store) (k : nat) :
  records_consistent s ->
  Z.of_nat k ∈ getUnansweredQuestions s
  <-> exists a, answers (quizState s) !! k = Some a /\ selectedAnswer a = None.
Proof.
  intros Hs. rewrite getUnansweredQuestions_elem. split.
  - intros (a & Hk & Hun). exists a. split; [done|].
    pose proof (proj1 (Forall_lookup _ _) Hs k a Hk) as Ha. cbn in Ha.
    rewrite Hun in Ha. by destruct (selectedAnswer a).
  - intros (a & Hk & Hnone). exists a. split; [done|].
    pose proof (proj1 (Forall_lookup _ _) Hs k a Hk) as Ha. cbn in Ha.
    by rewrite Hnone in Ha.
Qed.

(** X5. Every operation keeps the records consistent: [isAnswered] is true
    exactly on the records whose [selectedAnswer] is a number.  [resetQuiz],
    and [startQuiz] on a session that is not completed, make them
    consistent whatever they were.  On consistent records the unanswered
    positions are those whose [selectedAnswer] is [null]. *)
Theorem records_stay_consistent (s : Store) :
  (records_consistent s ->
   forall ops,
     records_consistent (run ops s)
     /\ forall k : nat,
          Z.of_nat k ∈ getUnansweredQuestions (run ops s)
          <-> exists a, answers (quizState (run ops s)) !! k = Some a
                /\ selectedAnswer a = None)
  /\ (forall now ops, records_consistent (run ops (step (OpResetQuiz now) s)))
  /\ (isCompleted (quizState s) = false ->
        forall now ops, records_consistent (run ops (step (OpStartQuiz now) s))).
Proof.
  repeat apply conj.
  - intros Hs ops. split; [by apply run_consistent|].
    intros k. by apply consistent_unanswered, run_consistent.
  - intros now ops. apply run_consistent, resetQuiz_consistent.
  - intros Hc now ops. by apply run_consistent, startQuiz_consistent.
Qed.

End Kept.

Section Aligned.

Context `{JSON}.
Variable questions : list Question.

Abbreviation step := (step questions).
Abbreviation run := (run questions).

Lemma fresh_answers_aligned (now : Z) :
  questionId <$> answers (getInitialQuizState questions now) = id <$> questions.
Proof. cbn. change (map ?f ?l) with (f <$> l). by rewrite <- list_fmap_compose. Qed.

Lemma step_aligned (op : Op) (s : Store) :
  records_aligned questions s -> records_aligned questions (step op s).
Proof.
  unfold records_aligned. intros Hs.
  replace (quizState (step op s))
    with (quizState (pending (handler questions op s
                                {| pending := s; quizStateSet := false |})))
    by (symmetry; apply commit_quizState).
  destruct op; unfold_handler; cbn;
    repeat match goal with |- context [if ?b then _ else _] => destruct b end;
    cbn; try done; try exact (fresh_answers_aligned 0).
  rewrite <- Hs. change (map ?f ?l) with (f <$> l). rewrite <- list_fmap_compose.
  apply list_fmap_ext. intros k a _. cbn. by case_bool_decide.
Qed.

Lemma run_aligned (ops : list Op) (s : Store) :
  records_aligned questions s -> records_aligned questions (run ops s).
Proof.
  revert s. induction ops as [|op ops IH]; intros s Hs; [done|].
  apply IH. by apply step_aligned.
Qed.

Lemma resetQuiz_aligned (now : Z) (s : Store) :
  records_aligned questions (step (OpResetQuiz now) s).
Proof.
  unfold records_aligned.
  replace (quizState (step (OpResetQuiz now) s))
    with (getInitialQuizState questions now)
    by (symmetry; apply commit_quizState).
  apply fresh_answers_aligned.
Qed.

Lemma startQuiz_aligned (now : Z) (s : Store) :
  isCompleted (quizState s) = false ->
  records_aligned questions (step (OpStartQuiz now) s).
Proof.
  intros Hc. unfold records_aligned. rewrite (startQuiz_answers questions now s Hc).
  apply fresh_answers_aligned.
Qed.

(** With aligned records and distinct ids, the record of the question at
    position [k] is the only one [updateAnswer] rewrites. *)
Lemma aligned_updateAnswer (s : Store) (k : nat) (q : Question) (answer : option Z) :
  records_aligned questions s ->
  NoDup (id <$> questions) ->
  questions !! k = Some q ->
  answers (quizState (step (OpUpdateAnswer (id q) answer) s))
  = <[k := answered_record (id q) answer]> (answers (quizState s)).
Proof.
  intros Hal Hnd Hq. rewrite answers_after_updateAnswer.
  assert (Hid : forall i a, answers (quizState s) !! i = Some a ->
                  (id <$> questions) !! i = Some (questionId a)).
  { intros i a Hi. rewrite <- Hal, list_lookup_fmap, Hi. done. }
  assert (Hqk : (id <$> questions) !! k = Some (id q))
    by (by rewrite list_lookup_fmap, Hq).
  apply list_eq. intros i. change (map ?f ?l) with (f <$> l).
  rewrite list_lookup_fmap.
  destruct (decide (i = k)) as [->|Hne].
  - destruct (answers (quizState s) !! k) as [a|] eqn:Ha.
    + rewrite list_lookup_insert_eq by (by eapply lookup_lt_Some). cbn.
      rewrite bool_decide_eq_true_2; [done|].
      pose proof (Hid k a Ha) as Hka. congruence.
    + cbn. symmetry. apply lookup_ge_None. rewrite length_insert.
      by apply lookup_ge_None.
  - rewrite list_lookup_insert_ne by done.
    destruct (answers (quizState s) !! i) as [a|] eqn:Ha; [|done]. cbn.
    rewrite bool_decide_eq_false_2; [done|].
    intros Heq. apply Hne.
    apply (NoDup_lookup _ i k (id q) Hnd); [|done].
    rewrite (Hid i a Ha). by rewrite Heq.
Qed.

(** X6. Every operation keeps the records aligned with the bank: the ids of
    the records are the ids of the questions, in bank order.  [resetQuiz],
    and [startQuiz] on a session that is not completed, align them whatever
    they were.  On aligned records of a bank with distinct ids,
    [updateAnswer] with the id of the question at position [k] replaces the
    record at position [k] and no other. *)
Theorem records_stay_aligned (s : Store) :
  (records_aligned questions s ->
   forall ops, records_aligned questions (run ops s))
  /\ (forall now ops, records_aligned questions (run ops (step (OpResetQuiz now) s)))
  /\ (isCompleted (quizState s) = false ->
        forall now ops, records_aligned questions (run ops (step (OpStartQuiz now) s)))
  /\ (records_aligned questions s -> NoDup (id <$> questions) ->
        forall (k : nat) (q : Question) (answer : option Z),
          questions !! k = Some q ->
          answers (quizState (step (OpUpdateAnswer (id q) answer) s))
          = <[k := answered_record (id q) answer]> (answers (quizState s))).
Proof.
  repeat apply conj.
  - intros Hs ops. by apply run_aligned.
  - intros now ops. apply run_aligned, resetQuiz_aligned.
  - intros Hc now ops. by apply run_aligned, startQuiz_aligned.
  - intros Hs Hnd k q answer Hq. by apply aligned_updateAnswer.
Qed.

End Aligned.

(** ** Submission and scoring *)

Section Submission.

Context `{JSON}.
Variable questions : list Question.

Abbreviation step := (step questions).
Abbreviation run := (run questions).

(** X7. [submitQuiz] sets [isCompleted] and changes no other field of the
    state; it stores the completed flag, removes the in-progress slot and
    touches no other key; done twice it is done once; and the unanswered
    positions are what they were. *)
Theorem submitQuiz_completes (s : Store) :
  let s' := step OpSubmitQuiz s in
  quizState s' = submitted (quizState s)
  /\ user s' = user s
  /\ isQuizStarted s' = isQuizStarted s
  /\ localStorage s' !! STORAGE_KEY = None
  /\ localStorage s' !! COMPLETED_STORAGE_KEY = Some "true"%string
  /\ (forall k, k <> STORAGE_KEY -> k <> COMPLETED_STORAGE_KEY ->
        localStorage s' !! k = localStorage s !! k)
  /\ step OpSubmitQuiz s' = s'
  /\ getUnansweredQuestions s' = getUnansweredQuestions s.
Proof.
  intros s'. subst s'. rewrite !step_submitQuiz_form. cbn.
  repeat apply conj; try done.
  - by rewrite lookup_delete_eq.
  - rewrite lookup_delete_ne by done. by rewrite lookup_insert_eq.
  - intros k Hk1 Hk2. rewrite lookup_delete_ne by done. by rewrite lookup_insert_ne.
  - assert (Hstorage :
      delete STORAGE_KEY
        (<[COMPLETED_STORAGE_KEY:="true"%string]>
           (delete STORAGE_KEY
              (<[COMPLETED_STORAGE_KEY:="true"%string]> (localStorage s))))
      = delete STORAGE_KEY
          (<[COMPLETED_STORAGE_KEY:="true"%string]> (localStorage s)));
      [|by rewrite Hstorage].
    apply map_eq. intros k.
    destruct (decide (k = STORAGE_KEY)) as [->|Hk1].
    + by rewrite !lookup_delete_eq.
    + rewrite !lookup_delete_ne by done.
      destruct (decide (k = COMPLETED_STORAGE_KEY)) as [->|Hk2].
      * by rewrite !lookup_insert_eq.
      * rewrite !lookup_insert_ne by done. rewrite lookup_delete_ne by done.
        by rewrite lookup_insert_ne.
Qed.

Lemma count_answer_step (acc : Z) (a : UserAnswer) :
  acc <= count_answer questions acc a <= acc + 1.
Proof.
  unfold count_answer. destruct (List.find _ questions); [|lia].
  case_bool_decide; lia.
Qed.

Lemma count_answer_unanswered (acc : Z) (a : UserAnswer) :
  selectedAnswer a = None -> count_answer questions acc a = acc.
Proof.
  intros Hnone. unfold count_answer. destruct (List.find _ questions); [|done].
  rewrite Hnone. by rewrite bool_decide_eq_false_2.
Qed.

Lemma fold_count_answer_bounds (l : list UserAnswer) (acc : Z) :
  acc <= fold_left (count_answer questions) l acc <= acc + Z.of_nat (length l).
Proof.
  revert acc. induction l as [|a l IH]; intros acc; cbn [fold_left length]; [lia|].
  pose proof (count_answer_step acc a). pose proof (IH (count_answer questions acc a)).
  lia.
Qed.

Lemma fold_count_answer_unanswered (l : list UserAnswer) (acc : Z) :
  Forall (fun a => selectedAnswer a = None) l ->
  fold_left (count_answer questions) l acc = acc.
Proof.
  intros Hall. revert acc. induction Hall as [|a l Ha _ IH]; intros acc; [done|].
  cbn [fold_left]. by rewrite (count_answer_unanswered acc a Ha).
Qed.

(** X8. The score is between [0] and the number of records, whatever the
    bank and the records are (ids repeated or unknown included); a session
    in which no answer is selected scores [0] also after submission. *)
Theorem calculateScore_bounds (s : Store) :
  0 <= calculateScore questions s <= Z.of_nat (length (answers (quizState s)))
  /\ (Forall (fun a => selectedAnswer a = None) (answers (quizState s)) ->
      calculateScore questions s = 0
      /\ calculateScore questions (step OpSubmitQuiz s) = 0).
Proof.
  split.
  - rewrite calculateScore_unfold. destruct (isCompleted (quizState s)); [|lia].
    pose proof (fold_count_answer_bounds (answers (quizState s)) 0). lia.
  - intros Hall. rewrite !calculateScore_unfold, step_submitQuiz_form. cbn.
    rewrite (fold_count_answer_unanswered _ 0 Hall).
    by destruct (isCompleted (quizState s)).
Qed.

End Submission.

(** ** Navigation, composed *)

Section Navigation.

Context `{JSON}.
Variable questions : list Question.

Abbreviation step := (step questions).
Abbreviation run := (run questions).

Lemma moved_same (q : QuizState) : moved (currentQuestion q) q = q.
Proof. by destruct q. Qed.

Lemma moved_moved (p1 p2 : Z) (q : QuizState) : moved p2 (moved p1 q) = moved p2 q.
Proof. reflexivity. Qed.

Lemma quizState_nextQuestion (s : Store) :
  quizState (step OpNextQuestion s)
  = moved (Z.min (currentQuestion (quizState s) + 1)
             (Z.of_nat (length questions) - 1)) (quizState s).
Proof. by rewrite step_nextQuestion_form, save_effect_with_quizState. Qed.

Lemma quizState_previousQuestion (s : Store) :
  quizState (step OpPreviousQuestion s)
  = moved (Z.max (currentQuestion (quizState s) - 1) 0) (quizState s).
Proof. by rewrite step_previousQuestion_form, save_effect_with_quizState. Qed.

(** X9. Going forward and then back returns to the state one started from
    when the position is not the last one, and going back and then forward
    does when it is not the first one.  In a bank of more than one question
    the pair moves the position by one at the two ends instead: back by one
    from the last position, forward by one from the first.  In a bank of
    one question, whose only position is first and last, both pairs leave
    the state as it is. *)
Theorem next_and_previous_cancel (s : Store) :
  let n := Z.of_nat (length questions) in
  let position := currentQuestion (quizState s) in
  (0 <= position < n - 1 ->
     quizState (step OpPreviousQuestion (step OpNextQuestion s)) = quizState s)
  /\ (0 < position <= n - 1 ->
        quizState (step OpNextQuestion (step OpPreviousQuestion s)) = quizState s)
  /\ (1 < n -> position = n - 1 ->
        currentQuestion (quizState (step OpPreviousQuestion (step OpNextQuestion s)))
        = position - 1)
  /\ (1 < n -> position = 0 ->
        currentQuestion (quizState (step OpNextQuestion (step OpPreviousQuestion s)))
        = 1)
  /\ (n = 1 -> position = 0 ->
        quizState (step OpPreviousQuestion (step OpNextQuestion s)) = quizState s
        /\ quizState (step OpNextQuestion (step OpPreviousQuestion s)) = quizState s).
Proof.
  intros n position. subst position.
  assert (Hone : n = 1 -> currentQuestion (quizState s) = 0 ->
            quizState (step OpPreviousQuestion (step OpNextQuestion s)) = quizState s
            /\ quizState (step OpNextQuestion (step OpPreviousQuestion s)) = quizState s).
  { intros Hn Hpos. split.
    - rewrite quizState_previousQuestion, quizState_nextQuestion.
      rewrite moved_moved. cbn [currentQuestion moved].
      replace (Z.max _ 0) with (currentQuestion (quizState s)) by (fold n; lia).
      apply moved_same.
    - rewrite quizState_nextQuestion, quizState_previousQuestion.
      rewrite moved_moved. cbn [currentQuestion moved].
      replace (Z.min _ _) with (currentQuestion (quizState s)) by (fold n; lia).
      apply moved_same. }
  repeat apply conj; [| | | |exact Hone].
  - intros Hpos. rewrite quizState_previousQuestion, quizState_nextQuestion.
    rewrite moved_moved. cbn [currentQuestion moved].
    replace (Z.max _ 0) with (currentQuestion (quizState s)) by (fold n; lia).
    apply moved_same.
  - intros Hpos. rewrite quizState_nextQuestion, quizState_previousQuestion.
    rewrite moved_moved. cbn [currentQuestion moved].
    replace (Z.min _ _) with (currentQuestion (quizState s)) by (fold n; lia).
    apply moved_same.
  - intros Hn Hpos. rewrite quizState_previousQuestion, quizState_nextQuestion.
    cbn [currentQuestion moved]. fold n. lia.
  - intros Hn Hpos. rewrite quizState_nextQuestion, quizState_previousQuestion.
    cbn [currentQuestion moved]. fold n. lia.
Qed.

(** X10. With a bank without questions: [nextQuestion] leaves a negative
    position, [-1] from the initial position [0]; [goToQuestion] never
    moves; [resetQuiz] leaves no record, no unanswered position and
    position [0]. *)
Theorem empty_bank_navigation (s : Store) :
  questions = [] ->
  currentQuestion (quizState (step OpNextQuestion s)) < 0
  /\ (currentQuestion (quizState s) = 0 ->
        currentQuestion (quizState (step OpNextQuestion s)) = -1)
  /\ (forall p, step (OpGoToQuestion p) s = s)
  /\ (forall now,
        answers (quizState (step (OpResetQuiz now) s)) = []
        /\ getUnansweredQuestions (step (OpResetQuiz now) s) = []
        /\ currentQuestion (quizState (step (OpResetQuiz now) s)) = 0).
Proof.
  intros Hempty.
  assert (Hn : Z.of_nat (length questions) = 0) by (by rewrite Hempty).
  repeat apply conj.
  - rewrite quizState_nextQuestion. cbn [currentQuestion moved]. lia.
  - intros Hpos. rewrite quizState_nextQuestion. cbn [currentQuestion moved]. lia.
  - intros p. apply goToQuestion_out_of_range. lia.
  - intros now.
    assert (Hq : quizState (step (OpResetQuiz now) s)
                 = getInitialQuizState questions now) by apply commit_quizState.
    unfold getUnansweredQuestions. rewrite Hq, Hempty. done.
Qed.


End Navigation.

(** ** Starting again *)

Section Restart.

Context `{JSON}.
Variable questions : list Question.

Abbreviation step := (step questions).
Abbreviation run := (run questions).

Lemma quizState_startQuiz (now : Z) (s : Store) :
  quizState (step (OpStartQuiz now) s)
  = if isCompleted (quizState s) then quizState s
    else {| currentQuestion := currentQuestion (quizState s);
            answers := answers (getInitialQuizState questions now);
            timeRemaining := QUIZ_DURATION;
            isCompleted := false;
            startTime := now |}.
Proof.
  replace (quizState (step (OpStartQuiz now) s))
    with (quizState (pending (startQuiz questions now s
                                {| pending := s; quizStateSet := false |})))
    by (symmetry; apply commit_quizState).
  by rewrite startQuiz_pending.
Qed.

Lemma progress_keeps (op : Op) (s : Store) :
  is_progress op ->
  isCompleted (quizState (step op s)) = isCompleted (quizState s)
  /\ currentQuestion (quizState (step op s)) = currentQuestion (quizState s).
Proof.
  intros Hop.
  replace (quizState (step op s))
    with (quizState (pending (handler questions op s
                                {| pending := s; quizStateSet := false |})))
    by (symmetry; apply commit_quizState).
  destruct op; try done; unfold_handler; cbn; try done.
  destruct (isCompleted (quizState s)) eqn:Hc; cbn; by rewrite ?Hc.
Qed.

Lemma run_progress_keeps (ops : list Op) (s : Store) :
  Forall is_progress ops ->
  isCompleted (quizState (run ops s)) = isCompleted (quizState s)
  /\ currentQuestion (quizState (run ops s)) = currentQuestion (quizState s).
Proof.
  intros Hops. revert s. induction Hops as [|op ops Hop _ IH]; intros s; [done|].
  change (run (op :: ops) s) with (run ops (step op s)).
  destruct (IH (step op s)) as [Hc Hp]. destruct (progress_keeps op s Hop) as [Hc' Hp'].
  split; congruence.
Qed.

Lemma unanswered_from_all (n : nat) (l : list UserAnswer) :
  Forall (fun a => isAnswered a = false) l ->
  map (fun '(index, answer) => Z.of_nat index)
    (filter (fun '(index, answer) => isAnswered answer = false)
       (imap (fun index answer => ((n + index)%nat, answer)) l))
  = Z.of_nat <$> seq n (length l).
Proof.
  intros Hall. revert n. induction Hall as [|a l Ha _ IH]; intros n; [done|].
  cbn [imap length seq]. rewrite filter_cons.
  assert (Hrest : imap ((fun index answer => ((n + index)%nat, answer)) ∘ S) l
                  = imap (fun index answer => ((S n + index)%nat, answer)) l).
  { apply imap_ext. intros i x _. cbn. f_equal. lia. }
  rewrite Hrest. destruct (decide _) as [_|Hno]; [|done].
  cbn [map]. rewrite IH, fmap_cons. f_equal. f_equal. lia.
Qed.

Lemma fresh_answers_unanswered (now : Z) :
  Forall (fun a => isAnswered a = false) (answers (getInitialQuizState questions now)).
Proof.
  apply Forall_forall. intros a Ha. cbn in Ha.
  by apply list_elem_of_fmap in Ha as (q & -> & _).
Qed.

(** X12. Starting is a fresh attempt: on a session that is not completed,
    whatever answers were recorded and whatever the timer was told before
    [startQuiz], the state after it is the one [startQuiz] gives at once,
    with every position unanswered and the full duration. *)
Theorem startQuiz_discards_progress (s : Store) (ops : list Op) (now : Z) :
  isCompleted (quizState s) = false ->
  Forall is_progress ops ->
  quizState (step (OpStartQuiz now) (run ops s))
  = quizState (step (OpStartQuiz now) s)
  /\ timeRemaining (quizState (step (OpStartQuiz now) (run ops s))) = QUIZ_DURATION
  /\ getUnansweredQuestions (step (OpStartQuiz now) (run ops s))
     = Z.of_nat <$> seq 0 (length questions).
Proof.
  intros Hc Hops. destruct (run_progress_keeps ops s Hops) as [Hc' Hp'].
  rewrite !quizState_startQuiz, Hc', Hc, Hp'. repeat split.
  unfold getUnansweredQuestions. rewrite quizState_startQuiz, Hc', Hc.
  cbn [answers].
  rewrite <- (length_map (fun q => {| questionId := id q; selectedAnswer := None;
                                      isAnswered := false |}) questions).
  exact (unanswered_from_all 0 _ (fresh_answers_unanswered now)).
Qed.

End Restart.

Lemma empty_bank_navigation_witness :
  empty_bank = []
  /\ currentQuestion (quizState (@step browser_JSON empty_bank OpNextQuestion
                                   sample_mounted)) = -1.
Proof.
  split; [reflexivity|].
  apply (proj1 (proj2 (@empty_bank_navigation browser_JSON empty_bank
                         sample_mounted eq_refl))).
  reflexivity.
Defined.

Lemma sample_progress_ops :
  Forall is_progress [OpUpdateAnswer 1 (Some 0); OpUpdateTimer 5].
Proof. repeat constructor. Defined.

Lemma sample_started_not_completed : isCompleted (quizState sample_started) = false.
Proof. vm_compute. reflexivity. Defined.

Lemma startQuiz_discards_progress_witness :
  isCompleted (quizState sample_started) = false
  /\ Forall is_progress [OpUpdateAnswer 1 (Some 0); OpUpdateTimer 5]
  /\ quizState (@step browser_JSON sample_questions (OpStartQuiz 9)
                  (@run browser_JSON sample_questions
                     [OpUpdateAnswer 1 (Some 0); OpUpdateTimer 5] sample_started))
     = quizState (@step browser_JSON sample_questions (OpStartQuiz 9) sample_started).
Proof.
  split; [apply sample_started_not_completed|]. split; [apply sample_progress_ops|].
  apply (proj1 (@startQuiz_discards_progress browser_JSON sample_questions
                  sample_started [OpUpdateAnswer 1 (Some 0); OpUpdateTimer 5] 9
                  sample_started_not_completed sample_progress_ops)).
Defined.

(** ** Reloading *)

Section Reload.

Context `{JSON}.
Variable questions : list Question.

Abbreviation step := (step questions).
Abbreviation run := (run questions).

(** What a successful mount leaves. *)
Lemma mount_Ok (initial : QuizState) (storage : gmap string string) (s' : Store) :
  mount initial storage = Ok s' ->
  quizState s' = initial
  /\ isQuizStarted s' = bool_decide (storage !! START_STORAGE_KEY = Some "true"%string)
  /\ localStorage s'
     = (if bool_decide (storage !! START_STORAGE_KEY = Some "true"%string)
           && negb (isCompleted initial)
        then <[STORAGE_KEY := JSON_stringify (QuizState_toJS initial)]> storage
        else storage)
  /\ (item_truthy (storage !! USER_STORAGE_KEY) = None -> user s' = None)
  /\ (forall text, item_truthy (storage !! USER_STORAGE_KEY) = Some text ->
        JSON_parse text = Ok (default JNull (user s')) /\ is_Some (user s')).
Proof.
  unfold mount. intros Hmount.
  assert (Hstorage : forall u,
    localStorage (commit {| quizState := initial; user := None;
                            isQuizStarted := false; localStorage := storage |}
                    {| pending := {| quizState := initial; user := u;
                         isQuizStarted := bool_decide (storage !! START_STORAGE_KEY
                                                       = Some "true"%string);
                         localStorage := storage |};
                       quizStateSet := false |})
    = (if bool_decide (storage !! START_STORAGE_KEY = Some "true"%string)
          && negb (isCompleted initial)
       then <[STORAGE_KEY := JSON_stringify (QuizState_toJS initial)]> storage
       else storage)).
  { intros u. unfold commit, save_effect. cbn.
    by destruct (bool_decide _), (isCompleted initial). }
  destruct (item_truthy (storage !! USER_STORAGE_KEY)) as [text|] eqn:Huser.
  - destruct (JSON_parse text) as [u|e] eqn:Hparse; [|done].
    cbn [mbind completion_bind cbind] in Hmount. injection Hmount as <-.
    rewrite commit_quizState, commit_isQuizStarted, commit_user, Hstorage. cbn.
    split; [done|]. split; [done|]. split; [done|]. split; [done|].
    intros text' [= <-]. by split.
  - cbn [mbind completion_bind cbind] in Hmount. injection Hmount as <-.
    rewrite commit_quizState, commit_isQuizStarted, commit_user, Hstorage. cbn.
    split; [done|]. split; [done|]. split; [done|]. split; [done|].
    intros text' [=].
Qed.

(** Without a stored user the mount succeeds. *)
Lemma mount_without_user (initial : QuizState) (storage : gmap string string) :
  item_truthy (storage !! USER_STORAGE_KEY) = None ->
  exists s', mount initial storage = Ok s'.
Proof. intros Huser. unfold mount. rewrite Huser. by eexists. Qed.

Lemma commit_other_key (s : Store) (p : Pending) (k : string) :
  k <> STORAGE_KEY -> localStorage (commit s p) !! k = localStorage (pending p) !! k.
Proof.
  intros Hk. unfold commit. destruct (_ || _); [by apply save_effect_other_key|done].
Qed.

Lemma step_started_flag (op : Op) (s : Store) :
  started_flag_agrees s -> started_flag_agrees (step op s).
Proof.
  unfold started_flag_agrees. intros Hs.
  unfold step. rewrite commit_isQuizStarted, commit_other_key by done.
  destruct op; unfold_handler; cbn;
    repeat match goal with |- context [if ?b then _ else _] => destruct b end;
    cbn; try done.
  all: repeat first [rewrite lookup_insert_eq | rewrite lookup_delete_eq
                    | rewrite lookup_insert_ne by done
                    | rewrite lookup_delete_ne by done]; try done.
Qed.

Lemma mount_started_flag (initial : QuizState) (storage : gmap string string)
    (s' : Store) :
  mount initial storage = Ok s' -> started_flag_agrees s'.
Proof.
  intros (_ & Hstarted & Hstorage & _)%mount_Ok. unfold started_flag_agrees.
  rewrite Hstarted, Hstorage.
  destruct (_ && _); [|done]. by rewrite lookup_insert_ne.
Qed.

(** On every store the program can be in, [isQuizStarted] is on exactly when
    the started flag of [localStorage] is ['true']. *)
Lemma reachable_started_flag (s : Store) :
  reachable questions s -> started_flag_agrees s.
Proof.
  induction 1 as [storage now initial s Hinit Hmount|op s _ IH].
  - by eapply mount_started_flag.
  - by apply step_started_flag.
Qed.

Lemma step_resetQuiz_store (s : Store) (now : Z) :
  step (OpResetQuiz now) s
  = {| quizState := getInitialQuizState questions now;
       user := None;
       isQuizStarted := false;
       localStorage :=
         delete USER_STORAGE_KEY (delete COMPLETED_STORAGE_KEY
           (delete START_STORAGE_KEY (delete STORAGE_KEY (localStorage s)))) |}.
Proof.
  unfold step, commit. cbn [handler resetQuiz seq_action setQuizState quizStateSet
    setIsQuizStarted removeItem on_localStorage setUserState orb].
  by rewrite save_effect_not_started.
Qed.

Lemma initializer_without_slot (storage : gmap string string) (now : Z) :
  storage !! STORAGE_KEY = None ->
  quizState_initializer questions storage now
  = Ok (QuizState_toJS (getInitialQuizState questions now)).
Proof. intros Hnone. unfold quizState_initializer. by rewrite Hnone. Qed.

(** X13. A reload after [resetQuiz], from any store: the initializer returns
    the fresh state of the time of the reload, the load effect does not
    throw, and the mounted store is not started, has no user and has the
    [localStorage] that [resetQuiz] left. *)
Theorem resetQuiz_then_reload (s : Store) (now now' : Z) :
  let s1 := step (OpResetQuiz now) s in
  let fresh := getInitialQuizState questions now' in
  quizState_initializer questions (localStorage s1) now' = Ok (QuizState_toJS fresh)
  /\ mount fresh (localStorage s1)
     = Ok {| quizState := fresh; user := None; isQuizStarted := false;
             localStorage := localStorage s1 |}.
Proof.
  intros s1 fresh. subst s1. rewrite step_resetQuiz_store. cbn [localStorage].
  split.
  - apply initializer_without_slot.
    rewrite !lookup_delete_ne by done. by rewrite lookup_delete_eq.
  - unfold mount. rewrite lookup_delete_eq. cbn [item_truthy mbind completion_bind cbind].
    rewrite lookup_delete_ne, lookup_delete_ne, lookup_delete_eq by done.
    rewrite bool_decide_eq_false_2 by done.
    unfold commit. cbn. done.
Qed.

(** X14. A reload after [submitQuiz] on a started session of the program:
    the completed flag is in [localStorage] but nothing reads it, the
    in-progress slot is gone, so the initializer returns the fresh state;
    the load effect turns [isQuizStarted] on again, and the save effect
    writes the fresh, not completed state into the in-progress slot. *)
Theorem submitQuiz_then_reload (s : Store) (now : Z) :
  reachable questions s ->
  isQuizStarted s = true ->
  let s1 := step OpSubmitQuiz s in
  let fresh := getInitialQuizState questions now in
  isCompleted (quizState s1) = true
  /\ localStorage s1 !! COMPLETED_STORAGE_KEY = Some "true"%string
  /\ quizState_initializer questions (localStorage s1) now = Ok (QuizState_toJS fresh)
  /\ (forall s', mount fresh (localStorage s1) = Ok s' ->
        quizState s' = fresh
        /\ isCompleted (quizState s') = false
        /\ isQuizStarted s' = true
        /\ localStorage s' !! STORAGE_KEY = Some (JSON_stringify (QuizState_toJS fresh))).
Proof.
  intros Hreach Hstarted s1 fresh. subst s1.
  pose proof (reachable_started_flag s Hreach) as Hflag.
  unfold started_flag_agrees in Hflag. rewrite Hstarted in Hflag.
  rewrite step_submitQuiz_form. cbn [localStorage quizState submitted isCompleted].
  split; [done|]. split.
  { rewrite lookup_delete_ne by done. by rewrite lookup_insert_eq. }
  split.
  { apply initializer_without_slot. by rewrite lookup_delete_eq. }
  intros s' (Hq & Hs & Hl & _)%mount_Ok.
  rewrite lookup_delete_ne, lookup_insert_ne in Hs, Hl by done.
  rewrite <- Hflag in Hs, Hl. rewrite Hq, Hs, Hl. cbn.
  by rewrite lookup_insert_eq.
Qed.

Lemma setUser_user_saved (u : User) (s : Store) :
  user_saved u (step (OpSetUser u) s).
Proof.
  unfold user_saved, step. rewrite commit_user, commit_other_key by done.
  cbn. by rewrite lookup_insert_eq.
Qed.

Lemma step_user_saved (u : User) (op : Op) (s : Store) :
  keeps_user op -> user_saved u s -> user_saved u (step op s).
Proof.
  unfold user_saved, step. intros Hop [Hu Hl].
  rewrite commit_user, commit_other_key by done.
  destruct op; try done; unfold_handler; cbn;
    repeat match goal with |- context [if ?b then _ else _] => destruct b end;
    cbn; try done.
  all: split; [done|].
  all: repeat first [rewrite lookup_insert_ne by done
                    | rewrite lookup_delete_ne by done]; done.
Qed.

Lemma run_user_saved (u : User) (ops : list Op) (s : Store) :
  Forall keeps_user ops -> user_saved u s -> user_saved u (run ops s).
Proof.
  intros Hops. revert s. induction Hops as [|op ops Hop _ IH]; intros s Hs; [done|].
  cbn. apply IH. by apply step_user_saved.
Qed.

(** The load effect on a stored user text that parses. *)
Lemma mount_with_user (initial : QuizState) (storage : gmap string string)
    (text : string) (u : User) :
  storage !! USER_STORAGE_KEY = Some text ->
  text <> ""%string ->
  JSON_parse text = Ok u ->
  exists s', mount initial storage = Ok s' /\ user s' = Some u.
Proof.
  intros Hl Hne Hparse. unfold mount. rewrite Hl. cbn [item_truthy].
  rewrite (bool_decide_eq_false_2 (text = ""%string)) by done. rewrite Hparse.
  cbn [mbind completion_bind cbind]. eexists. split; [reflexivity|].
  by rewrite commit_user.
Qed.

End Reload.

(** X15. With the browser's [JSON], on every store the program can be in,
    [isQuizStarted] is on exactly when the started flag of [localStorage] is
    ['true'].  A reload of such a store that is started and not completed:
    the initializer returns the state of the store, with [startTime]
    replaced by the time of the reload when it is [0]; every store the load
    effect mounts on it has this state and is started again, is a store of
    the program, and when [startTime] is not [0] its state and its
    [localStorage] are those before the reload. *)
Theorem reload_resumes_session (questions : list Question) (s : Store) (now : Z) :
  @reachable browser_JSON questions s ->
  started_flag_agrees s
  /\ (isQuizStarted s = true
      <-> localStorage s !! START_STORAGE_KEY = Some "true"%string)
  /\ (isQuizStarted s = true ->
      isCompleted (quizState s) = false ->
      let restored := with_startTime_filled (quizState s) now in
      @quizState_initializer browser_JSON questions (localStorage s) now
      = Ok (QuizState_toJS restored)
      /\ (forall s', @mount browser_JSON restored (localStorage s) = Ok s' ->
            quizState s' = restored
            /\ isQuizStarted s' = true
            /\ @reachable browser_JSON questions s'
            /\ (startTime (quizState s) <> 0 ->
                  quizState s' = quizState s /\ localStorage s' = localStorage s))).
Proof.
  intros Hreach.
  pose proof (@reachable_started_flag browser_JSON questions s Hreach) as Hagrees.
  split; [exact Hagrees|]. split.
  { unfold started_flag_agrees in Hagrees. rewrite Hagrees. split.
    - apply bool_decide_eq_true_1.
    - apply bool_decide_eq_true_2. }
  intros Hstarted Hc restored.
  pose proof Hagrees as Hflag.
  unfold started_flag_agrees in Hflag. rewrite Hstarted in Hflag.
  destruct (@round_trip_for_codec browser_JSON questions questions s now) as [_ Hown];
    [by apply reachable_invariant|done|apply print_nonempty
    |apply parse_print, QuizState_toJS_unique_keys|].
  destruct (Hown Hstarted Hc) as [Hslot Hinit].
  split; [exact Hinit|].
  intros s' Hmount.
  pose proof (reachable_mount questions _ _ _ _ Hinit Hmount) as Hreach'.
  apply mount_Ok in Hmount as (Hq & Hs & Hl & _).
  rewrite <- Hflag in Hs, Hl.
  split; [done|]. split; [done|]. split; [done|].
  intros Hst.
  assert (Hsame : restored = quizState s).
  { subst restored. unfold with_startTime_filled.
    rewrite bool_decide_eq_false_2 by done. by destruct (quizState s). }
  rewrite Hsame in Hq, Hl. split; [done|].
  rewrite Hl, Hc. cbn. by apply insert_id.
Qed.

(** X16. With the browser's [JSON]: a user object set by [setUser] stays in
    the store and in [localStorage] over any operations other than
    [setUser] and [resetQuiz], and the load effect of a reload reads it back:
    the mounted store has the same user. *)
Theorem setUser_survives_reload (questions : list Question) (s : Store)
    (properties : list (string * JsVal)) (ops : list Op) (initial : QuizState) :
  unique_keys (JObj properties) ->
  Forall keeps_user ops ->
  let u := JObj properties in
  let s1 := @run browser_JSON questions ops
              (@step browser_JSON questions (OpSetUser u) s) in
  user s1 = Some u
  /\ localStorage s1 !! USER_STORAGE_KEY = Some (Json.print u)
  /\ exists s', @mount browser_JSON initial (localStorage s1) = Ok s'
                /\ user s' = Some u.
Proof.
  intros Huniq Hops u s1.
  destruct (@run_user_saved browser_JSON questions u ops
              (@step browser_JSON questions (OpSetUser u) s) Hops
              (@setUser_user_saved browser_JSON questions u s)) as [Hu Hl].
  split; [exact Hu|]. split; [exact Hl|].
  eapply (@mount_with_user browser_JSON); [exact Hl|apply print_nonempty|].
  by apply parse_print.
Qed.

Lemma sample_started_is_started : isQuizStarted sample_started = true.
Proof. vm_compute. reflexivity. Defined.

Lemma submitQuiz_then_reload_witness :
  @reachable browser_JSON sample_questions sample_started
  /\ isQuizStarted sample_started = true
  /\ @quizState_initializer browser_JSON sample_questions
       (localStorage (@step browser_JSON sample_questions OpSubmitQuiz sample_started))
       3000
     = Ok (QuizState_toJS (getInitialQuizState sample_questions 3000)).
Proof.
  split; [apply sample_started_reachable|]. split; [apply sample_started_is_started|].
  apply (proj1 (proj2 (proj2 (@submitQuiz_then_reload browser_JSON sample_questions
                                sample_started 3000 sample_started_reachable
                                sample_started_is_started)))).
Defined.

Lemma reload_resumes_session_witness :
  @reachable browser_JSON sample_questions sample_started
  /\ localStorage sample_started !! START_STORAGE_KEY = Some "true"%string
  /\ @quizState_initializer browser_JSON sample_questions
       (localStorage sample_started) 3000
     = Ok (QuizState_toJS (with_startTime_filled (quizState sample_started) 3000)).
Proof.
  split; [apply sample_started_reachable|].
  destruct (reload_resumes_session sample_questions sample_started 3000
              sample_started_reachable) as (_ & Hflag & Hreload).
  split; [apply Hflag, sample_started_is_started|].
  apply (proj1 (Hreload sample_started_is_started sample_started_not_completed)).
Defined.

Lemma sample_user_unique_keys :
  unique_keys (JObj [("name"%string, JStr "Ani"); ("class"%string, JNum 12)]).
Proof.
  constructor.
  - apply (bool_decide_unpack _). vm_compute. exact I.
  - repeat constructor.
Defined.

Lemma sample_keeps_user_ops : Forall keeps_user [OpStartQuiz 2000; OpSubmitQuiz].
Proof. repeat constructor. Defined.

Lemma setUser_survives_reload_witness :
  unique_keys (JObj [("name"%string, JStr "Ani"); ("class"%string, JNum 12)])
  /\ Forall keeps_user [OpStartQuiz 2000; OpSubmitQuiz]
  /\ user (@run browser_JSON sample_questions [OpStartQuiz 2000; OpSubmitQuiz]
             (@step browser_JSON sample_questions (OpSetUser sample_user)
                sample_mounted))
     = Some sample_user.
Proof.
  split; [apply sample_user_unique_keys|]. split; [apply sample_keeps_user_ops|].
  apply (proj1 (setUser_survives_reload sample_questions sample_mounted
                  [("name"%string, JStr "Ani"); ("class"%string, JNum 12)]
                  [OpStartQuiz 2000; OpSubmitQuiz]
                  (getInitialQuizState sample_questions 3000)
                  sample_user_unique_keys sample_keeps_user_ops)).
Defined.

(** ** From the answers to the score *)

Section Scoring.

Context `{JSON}.
Variable questions : list Question.

Abbreviation step := (step questions).
Abbreviation run := (run questions).

Lemma answers_after_answer_all (choice : Question -> option Z) (qs : list Question)
    (s : Store) :
  NoDup (id <$> qs) ->
  answers (quizState (run (answer_all choice qs) s))
  = map (overridden choice qs) (answers (quizState s)).
Proof.
  revert s. induction qs as [|q qs IH]; intros s Hnd.
  - cbn. symmetry. apply map_id.
  - apply NoDup_cons in Hnd as [Hfresh Hnd].
    cbn [answer_all map]. change (run (?op :: ?ops) s) with (run ops (step op s)).
    change (map (fun q0 => OpUpdateAnswer (id q0) (choice q0)) qs)
      with (answer_all choice qs).
    rewrite (IH _ Hnd), answers_after_updateAnswer, map_map.
    apply map_ext. intros a. unfold overridden. cbn [List.find].
    destruct (bool_decide (questionId a = id q)) eqn:Hq.
    + apply bool_decide_eq_true_1 in Hq.
      rewrite (bool_decide_eq_true_2 (id q = questionId a)) by done.
      cbn [answered_record questionId].
      rewrite find_by_id_None; [done|].
      intros q' Hin Heq. apply Hfresh. rewrite <- Heq. by apply list_elem_of_fmap_2.
    + apply bool_decide_eq_false_1 in Hq.
      by rewrite (bool_decide_eq_false_2 (id q = questionId a)).
Qed.

Lemma overridden_aligned (choice : Question -> option Z) (l : list UserAnswer)
    (qs : list Question) :
  NoDup (id <$> questions) ->
  qs ⊆ questions ->
  questionId <$> l = id <$> qs ->
  map (overridden choice questions) l
  = map (fun q => answered_record (id q) (choice q)) qs.
Proof.
  intros Hnd. revert qs. induction l as [|a l IH]; intros [|q qs] Hsub Hal; try done.
  cbn in Hal. injection Hal as Hid Hal. cbn [map]. f_equal.
  - unfold overridden. rewrite Hid.
    rewrite (find_by_id_unique questions q Hnd); [done|]. apply Hsub. by left.
  - apply IH; [|done]. intros x Hx. apply Hsub. by right.
Qed.

Lemma fold_count_answer_choices (choice : Question -> option Z) (qs : list Question)
    (acc : Z) :
  NoDup (id <$> questions) ->
  qs ⊆ questions ->
  fold_left (count_answer questions)
    (map (fun q => answered_record (id q) (choice q)) qs) acc
  = acc + Z.of_nat (length (filter (fun q => choice q = Some (correctAnswer q)) qs)).
Proof.
  intros Hnd. revert acc. induction qs as [|q qs IH]; intros acc Hsub; [cbn; lia|].
  cbn [map fold_left]. rewrite IH by (intros x Hx; apply Hsub; by right).
  unfold count_answer. cbn [answered_record questionId selectedAnswer].
  rewrite (find_by_id_unique questions q Hnd) by (apply Hsub; by left).
  rewrite filter_cons.
  destruct (decide (choice q = Some (correctAnswer q))) as [Hyes|Hno].
  - rewrite bool_decide_eq_true_2 by done. cbn [length]. lia.
  - rewrite bool_decide_eq_false_2 by done. lia.
Qed.

(** X17. From the records of the bank, with distinct question ids: after
    one [updateAnswer] per question with the answer chosen for it, and
    [submitQuiz], the records are those answers in bank order and
    [calculateScore] is the number of questions whose chosen answer is the
    question's [correctAnswer]; it is the number of questions when every
    choice is the correct one. *)
Theorem calculateScore_after_answering (s : Store) (choice : Question -> option Z) :
  records_aligned questions s ->
  NoDup (id <$> questions) ->
  let s1 := step OpSubmitQuiz (run (answer_all choice questions) s) in
  answers (quizState s1)
  = map (fun q => answered_record (id q) (choice q)) questions
  /\ calculateScore questions s1
     = Z.of_nat (length (filter (fun q => choice q = Some (correctAnswer q)) questions))
  /\ ((forall q, q ∈ questions -> choice q = Some (correctAnswer q)) ->
        calculateScore questions s1 = Z.of_nat (length questions)).
Proof.
  intros Hal Hnd s1.
  assert (Hanswers : answers (quizState s1)
                     = map (fun q => answered_record (id q) (choice q)) questions).
  { subst s1. rewrite step_submitQuiz_form. cbn [quizState submitted answers].
    rewrite answers_after_answer_all by done.
    by apply overridden_aligned. }
  assert (Hscore : calculateScore questions s1
     = Z.of_nat (length (filter (fun q => choice q = Some (correctAnswer q)) questions))).
  { rewrite calculateScore_unfold, Hanswers.
    replace (isCompleted (quizState s1)) with true
      by (subst s1; by rewrite step_submitQuiz_form).
    by rewrite fold_count_answer_choices. }
  split; [done|]. split; [done|].
  intros Hall. rewrite Hscore. do 2 f_equal.
  clear -Hall. induction questions as [|q qs IH]; [done|].
  rewrite filter_cons. rewrite decide_True by (apply Hall; by left).
  f_equal. apply IH. intros x Hx. apply Hall. by right.
Qed.

End Scoring.

Lemma sample_started_aligned : records_aligned sample_questions sample_started.
Proof. vm_compute. reflexivity. Defined.

Lemma calculateScore_after_answering_witness :
  records_aligned sample_questions sample_started
  /\ NoDup (id <$> sample_questions)
  /\ calculateScore sample_questions
       (@step browser_JSON sample_questions OpSubmitQuiz
          (@run browser_JSON sample_questions
             (answer_all (fun q => Some (correctAnswer q)) sample_questions)
             sample_started))
     = Z.of_nat (length sample_questions).
Proof.
  split; [apply sample_started_aligned|].
  split; [apply sample_questions_distinct_ids|].
  apply (proj2 (proj2 (@calculateScore_after_answering browser_JSON sample_questions
                         sample_started (fun q => Some (correctAnswer q))
                         sample_started_aligned sample_questions_distinct_ids))).
  reflexivity.
Defined.

(** ** The orders the shuffle can give *)

Section ShuffleOrders.

Import Presenter.

Lemma swap_app {T} (b tail : list T) (i : nat) (j : Z) :
  (i < length b)%nat -> 0 <= j -> (Z.to_nat j < length b)%nat ->
  swap (b ++ tail) i j = swap b i j ++ tail.
Proof.
  intros Hi Hj Hjb. unfold swap, js_index.
  replace (0 <=? j) with true by (symmetry; apply Z.leb_le; lia).
  rewrite !lookup_app_l by done.
  destruct (lookup_lt_is_Some_2 b (Z.to_nat j) Hjb) as [aj ->].
  destruct (lookup_lt_is_Some_2 b i Hi) as [ai ->].
  rewrite (insert_app_l b tail i aj) by done.
  rewrite insert_app_l by (by rewrite length_insert).
  done.
Qed.

Lemma shuffle_loop_length {T} (random : nat -> Q) (calls i : nat) (a : list T) :
  length (shuffle_loop random calls i a) = length a.
Proof.
  revert calls a. induction i as [|i IH]; intros calls a; [done|].
  cbn [shuffle_loop]. by rewrite IH, swap_length.
Qed.

(** The loop at counter [i] works on the first [i + 1] entries only. *)
Lemma shuffle_loop_app {T} (random : nat -> Q) (calls i : nat) (b tail : list T) :
  unit_interval random -> (i < length b)%nat ->
  shuffle_loop random calls i (b ++ tail) = shuffle_loop random calls i b ++ tail.
Proof.
  intros Hrandom. revert calls b. induction i as [|i IH]; intros calls b Hi; [done|].
  cbn [shuffle_loop].
  destruct (Hrandom calls) as [H0 H1].
  pose proof (floor_draw_range (random calls) (S i) H0 H1) as Hj.
  rewrite swap_app by lia.
  apply IH. rewrite swap_length. lia.
Qed.

(** The loop at counter [i], after [calls] calls of [Math.random], reads
    the next [i] samples and no other. *)
Lemma shuffle_loop_ext {T} (r1 r2 : nat -> Q) (calls i : nat) (a : list T) :
  (forall k, (calls <= k < calls + i)%nat -> r1 k = r2 k) ->
  shuffle_loop r1 calls i a = shuffle_loop r2 calls i a.
Proof.
  revert calls a. induction i as [|i IH]; intros calls a Hsame; [done|].
  cbn [shuffle_loop]. rewrite (Hsame calls) by lia.
  apply IH. intros k Hk. apply Hsame. lia.
Qed.

(** A sample of [Math.random] for which the draw at counter [i] is [j]. *)
Lemma draw_floor (j : Z) (i : nat) :
  0 <= j <= Z.of_nat i ->
  Math_floor ((j # Pos.of_succ_nat i) * inject_Z (Z.of_nat i + 1)) = j
  /\ (0 <= j # Pos.of_succ_nat i)%Q
  /\ (j # Pos.of_succ_nat i < 1)%Q.
Proof.
  intros Hj. split; [|split].
  - unfold Math_floor, Qmult, inject_Z, Qfloor. cbn [Qnum Qden].
    rewrite Pos.mul_1_r, Zpos_P_of_succ_nat.
    replace (Z.succ (Z.of_nat i)) with (Z.of_nat i + 1) by lia.
    apply Z.div_mul. lia.
  - unfold Qle. cbn [Qnum Qden]. lia.
  - unfold Qlt. cbn [Qnum Qden]. rewrite Zpos_P_of_succ_nat. lia.
Qed.

Lemma list_last_split {T} (l : list T) (m : nat) :
  length l = S m -> exists l' y, l = l' ++ [y] /\ length l' = m.
Proof.
  destruct l as [|y l' _] using rev_ind; [done|].
  rewrite length_app. cbn. intros Hl. exists l', y. split; [done|lia].
Qed.

Lemma shuffle_loop_reaches {T} (n : nat) (b target : list T) (calls : nat) :
  length b = S n -> target ≡ₚ b ->
  exists random, unit_interval random /\ shuffle_loop random calls n b = target.
Proof.
  revert b target calls. induction n as [|n IH]; intros b target calls Hlen Hperm.
  - exists (fun _ => 0%Q). split; [by intros k|].
    cbn. destruct b as [|x [|? ?]]; try done.
    symmetry. by apply Permutation_singleton_r.
  - assert (Htlen : length target = S (S n)) by (by rewrite Hperm).
    destruct (list_last_split target (S n) Htlen) as (t' & y & -> & Ht').
    assert (Hy : y ∈ b).
    { rewrite <- Hperm. apply elem_of_app. right. by apply list_elem_of_singleton. }
    apply list_elem_of_lookup in Hy as [j Hj].
    assert (Hjlt : (j < S (S n))%nat) by (rewrite <- Hlen; by eapply lookup_lt_Some).
    destruct (swap_in_range b (S n) (Z.of_nat j)) as (Hlast & _); [lia|lia|].
    rewrite Nat2Z.id, Hj in Hlast.
    destruct (list_last_split (swap b (S n) (Z.of_nat j)) (S n)) as (b' & y' & Hb & Hb').
    { by rewrite swap_length. }
    rewrite Hb in Hlast.
    rewrite lookup_app_r, Hb', Nat.sub_diag in Hlast by lia.
    injection Hlast as ->.
    assert (Hperm' : t' ≡ₚ b').
    { apply (Permutation_app_inv_r [y]). rewrite <- Hb, Hperm.
      symmetry. apply swap_Permutation. }
    destruct (IH b' t' (S calls) Hb' Hperm') as (random' & Hrandom' & Hloop).
    destruct (draw_floor (Z.of_nat j) (S n)) as (Hfloor & Hd0 & Hd1); [lia|].
    set (random := fun k : nat =>
           if (k =? calls)%nat then Z.of_nat j # Pos.of_succ_nat (S n) else random' k).
    assert (Hrandom : unit_interval random).
    { intros k. unfold random. destruct (k =? calls)%nat; [done|apply Hrandom']. }
    exists random. split; [done|].
    cbn [shuffle_loop].
    replace (random calls) with (Z.of_nat j # Pos.of_succ_nat (S n))
      by (unfold random; by rewrite Nat.eqb_refl).
    rewrite Hfloor, Hb.
    rewrite shuffle_loop_app by (done || lia).
    f_equal. rewrite <- Hloop. apply shuffle_loop_ext.
    intros k Hk. unfold random.
    by replace (k =? calls)%nat with false by (symmetry; apply Nat.eqb_neq; lia).
Qed.

Lemma shuffleArray_reaches {T} (array target : list T) :
  target ≡ₚ array ->
  exists random, unit_interval random /\ shuffleArray random array = target.
Proof.
  intros Hperm. unfold shuffleArray.
  destruct array as [|x array].
  - exists (fun _ => 0%Q). split; [by intros k|].
    cbn. symmetry. by apply Permutation_nil_r.
  - cbn [length]. rewrite Nat.sub_succ, Nat.sub_0_r.
    by apply shuffle_loop_reaches.
Qed.

(** X18. The shuffle can give every order: for every arrangement of an
    array there are samples of [Math.random] in [0, 1) for which
    [shuffleArray] returns it; and for every option of a question and every
    display position there are samples for which that option is shown at
    that position. *)
Theorem shuffle_reaches_every_order (opts : list string) :
  (forall display : list ShuffledOption,
     display ≡ₚ optionsWithIndex opts ->
     exists random, unit_interval random /\ shuffledOptions random opts = display)
  /\ (forall (o k : nat) (text : string),
        opts !! o = Some text -> (k < length opts)%nat ->
        exists random,
          unit_interval random
          /\ shuffledOptions random opts !! k = Some (mkShuffledOption (Z.of_nat o) text)).
Proof.
  split.
  - intros display Hperm. by apply shuffleArray_reaches.
  - intros o k text Ho Hk.
    set (l := optionsWithIndex opts).
    assert (Hlo : l !! o = Some (mkShuffledOption (Z.of_nat o) text)).
    { unfold l, optionsWithIndex. by rewrite list_lookup_imap, Ho. }
    assert (Hllen : length l = length opts).
    { unfold l, optionsWithIndex. by rewrite length_imap. }
    destruct (lookup_lt_is_Some_2 l k) as [xk Hlk]; [lia|].
    destruct (shuffleArray_reaches l
                (<[k := mkShuffledOption (Z.of_nat o) text]> (<[o := xk]> l)))
      as (random & Hrandom & Hshuffle).
    { by apply insert_insert_Permutation. }
    exists random. split; [done|].
    unfold shuffledOptions. fold l. rewrite Hshuffle.
    apply list_lookup_insert_eq. rewrite length_insert. lia.
Qed.

(** X19. [shuffleArray] on an array of [n] entries reads the first [n - 1]
    samples of [Math.random] and no other: two sequences of samples that
    agree on them give the same order.  An array of at most one entry is
    returned as it is. *)
Theorem shuffleArray_draws {T} (array : list T) :
  (forall r1 r2 : nat -> Q,
     (forall k, (k < length array - 1)%nat -> r1 k = r2 k) ->
     shuffleArray r1 array = shuffleArray r2 array)
  /\ ((length array <= 1)%nat -> forall random, shuffleArray random array = array)
  /\ (forall random, length (shuffleArray random array) = length array).
Proof.
  split; [|split].
  - intros r1 r2 Hsame. unfold shuffleArray. apply shuffle_loop_ext.
    intros k Hk. apply Hsame. lia.
  - intros Hlen random. unfold shuffleArray.
    by replace (length array - 1)%nat with 0%nat by lia.
  - intros random. apply shuffle_loop_length.
Qed.

(** X20. [handleAnswerSelect] throws a [TypeError] exactly for an index
    outside the display order, and then the store is not touched; a click
    on a button of the render, whose position is below the number of
    options, never throws. *)
Theorem handleAnswerSelect_outside_display `{JSON} (q : Question)
    (display : list ShuffledOption) :
  (forall i : Z,
     handleAnswerSelect q display i = Throw TypeError
     <-> ~ (0 <= i < Z.of_nat (length display)))
  /\ (forall (k : nat) (s : Store),
        click q display k s = Throw TypeError <-> (length display <= k)%nat)
  /\ (forall (random : nat -> Q) (k : nat) (s : Store),
        (k < length (options q))%nat ->
        exists s', click q (shuffledOptions random (options q)) k s = Ok s').
Proof.
  assert (Hthrow : forall i : Z,
            handleAnswerSelect q display i = Throw TypeError
            <-> ~ (0 <= i < Z.of_nat (length display))).
  { intros i. unfold handleAnswerSelect, js_index.
    destruct (0 <=? i) eqn:Hi.
    - apply Z.leb_le in Hi.
      destruct (display !! Z.to_nat i) as [opt|] eqn:Hopt.
      + apply lookup_lt_Some in Hopt. split; [done|lia].
      + apply lookup_ge_None in Hopt. split; [lia|done].
    - apply Z.leb_gt in Hi. split; [lia|done]. }
  split; [exact Hthrow|]. split.
  - intros k s. unfold click.
    destruct (handleAnswerSelect q display (Z.of_nat k)) as [a|e] eqn:Hh.
    + cbn. split; [done|]. intros Hk.
      assert (Hno : handleAnswerSelect q display (Z.of_nat k) = Throw TypeError)
        by (apply Hthrow; lia).
      congruence.
    + cbn. assert (He : e = TypeError).
      { unfold handleAnswerSelect in Hh. by destruct (js_index _ _); [|injection Hh as <-]. }
      subst e. split; [|done]. intros _.
      apply Hthrow in Hh. lia.
  - intros random k s Hk.
    destruct (lookup_lt_is_Some_2 (shuffledOptions random (options q)) k) as [opt Hopt].
    { unfold shuffledOptions, shuffleArray, optionsWithIndex.
      by rewrite shuffle_loop_length, length_imap. }
    exists (commit s (updateAnswer (id q) (Some (originalIndex opt))
                        {| pending := s; quizStateSet := false |})).
    unfold click, handleAnswerSelect. by rewrite js_index_of_nat, Hopt.
Qed.

End ShuffleOrders.

(** ** The timer guard and the render it reads *)

Section StaleTimer.

Context `{JSON}.
Variable questions : list Question.

Lemma step_is_dispatch (op : Op) (s : Store) :
  step questions op s = dispatch (handler questions op s) s.
Proof. reflexivity. Qed.

(** [updateTimer] of a render that is not completed writes into whatever
    state the store has by then: the guard reads the render, the updater
    reads [prev]. *)
Lemma dispatch_updateTimer_of_open_render (rendered s : Store) (t : Z) :
  isCompleted (quizState rendered) = false ->
  dispatch (updateTimer t rendered) s
  = save_effect (with_quizState s (ticked t (quizState s))).
Proof.
  intros Hopen. unfold dispatch, commit, updateTimer. rewrite Hopen. reflexivity.
Qed.

Lemma stale_updateTimer_on_completed (rendered s : Store) (t : Z) :
  isCompleted (quizState rendered) = false ->
  isCompleted (quizState s) = true ->
  dispatch (updateTimer t rendered) s = with_quizState s (ticked t (quizState s))
  /\ isCompleted (quizState (dispatch (updateTimer t rendered) s)) = true
  /\ timeRemaining (quizState (dispatch (updateTimer t rendered) s)) = t.
Proof.
  intros Hopen Hc.
  rewrite dispatch_updateTimer_of_open_render by done.
  rewrite save_effect_completed by done. done.
Qed.

(** [submitQuiz(); updateTimer(t)] called in a row by one event of a render
    that is not completed. *)
Lemma submitQuiz_then_updateTimer_in_one_event (s : Store) (t : Z) :
  isCompleted (quizState s) = false ->
  quizState (dispatch (submitQuiz ;;; updateTimer t s) s)
  = ticked t (submitted (quizState s)).
Proof.
  intros Hopen. unfold dispatch. rewrite commit_quizState.
  unfold seq_action at 1. unfold updateTimer. rewrite Hopen. reflexivity.
Qed.

End StaleTimer.

(** C6. [updateTimer] tests [isCompleted] of the render that created the
    handler, not of the state its updater writes into, so a completed
    session is not frozen against a handler of an earlier render.  On the
    sample session: after [submitQuiz] the session is completed with
    [timeRemaining] [5400000]; [updateTimer(5)] of the render before the
    submission, whose [quizState.isCompleted] is [false], then leaves the
    session completed with [timeRemaining] [5]; and so does one event of
    that render that calls [submitQuiz(); updateTimer(5)].  The handler of
    the completed render itself changes nothing. *)
Theorem updateTimer_guard_reads_stale_render :
  let before := sample_answered in
  let completed := @step browser_JSON sample_questions OpSubmitQuiz before in
  let late := @dispatch browser_JSON (updateTimer 5 before) completed in
  let together := @dispatch browser_JSON (submitQuiz ;;; updateTimer 5 before) before in
  isCompleted (quizState before) = false
  /\ isCompleted (quizState completed) = true
  /\ timeRemaining (quizState completed) = 5400000
  /\ isCompleted (quizState late) = true
  /\ timeRemaining (quizState late) = 5
  /\ isCompleted (quizState together) = true
  /\ timeRemaining (quizState together) = 5
  /\ @dispatch browser_JSON (updateTimer 5 completed) completed = completed.
Proof.
  intros before completed late together.
  assert (Hopen : isCompleted (quizState before) = false) by (vm_compute; reflexivity).
  assert (Hdone : isCompleted (quizState completed) = true)
    by (subst completed; by rewrite step_submitQuiz_form).
  destruct (@stale_updateTimer_on_completed browser_JSON before completed 5 Hopen Hdone)
    as (_ & Hlate_completed & Hlate_time).
  pose proof (@submitQuiz_then_updateTimer_in_one_event browser_JSON before 5 Hopen)
    as Htogether.
  split; [exact Hopen|]. split; [exact Hdone|].
  split; [subst completed; rewrite step_submitQuiz_form; vm_compute; reflexivity|].
  split; [exact Hlate_completed|]. split; [exact Hlate_time|].
  split; [subst together; by rewrite Htogether|].
  split; [subst together; by rewrite Htogether|].
  change (@step browser_JSON sample_questions (OpUpdateTimer 5) completed = completed).
  by apply step_updateTimer_completed.
Qed.
